(** * The Gumloop flow client of yc-mcp-express: [src/utils/gumloopUtil.js]

    A shallow embedding of the four exported functions

      - [getFlowRunDetails]         (the run status fetcher),
      - [pollFlowRunUntilComplete]  (the completion poller),
      - [startGumloopFlow]          (the job launcher),
      - [startAndWaitForFlow]       (the orchestration facade),

    and the properties of the polling state machine.

    The functions are [async]: every [await] is a sequence point of one
    logical flow, so they are written in a state-and-exception monad over a
    [World] that holds the clock read by [Date.now()], the number of outbound
    calls made through [fetch], the number of timers armed through
    [setTimeout], and the trace of what the code did.  What the remote
    service answers and how long calls and timers take is given by a [Host],
    over which every theorem quantifies.

    The routes of [src/routes/openapi.js] ([storePathsInRedis] and the
    handlers of [/full-spec], [/full-spec-from-url] and [/paths]) are
    embedded in the same way in [Routes], over a [Server] that holds the
    keys of redis, the requests made through axios and the responses sent,
    and a [Platform] that gives the library functions, the faults of redis
    and the replies of the remote servers. *)

From Stdlib Require Import ZArith List String Bool Lia.
Import ListNotations.
Local Open Scope Z_scope.
Set Warnings "-register-all".

(* ===================================================================== *)
(** ** JavaScript values                                                  *)
(* ===================================================================== *)

Module JS.

(** What [response.json()] can resolve to.  Numbers are kept as integers:
    no claim depends on a fractional payload. *)
Inductive JSON : Type :=
| JNull
| JBool (b : bool)
| JNum (n : Z)
| JStr (s : string)
| JArr (items : list JSON)
| JObj (fields : list (string * JSON)).

(** A JavaScript value as the code handles it: [None] is [undefined]. *)
Definition Value : Type := option JSON.

Definition undefined : Value := None.
Definition null : Value := Some JNull.
Definition str (s : string) : Value := Some (JStr s).

(** The errors the module can throw or let through, by throw site. *)
Inductive Error : Type :=
| FetchError                 (* the promise of fetch(...) rejected *)
| HttpError (status : Z)     (* new Error(`HTTP error! status: ${response.status}`) *)
| InvalidJson                (* the promise of response.json() rejected *)
| TypeError (prop : string)  (* property read on null *)
| FlowFailed (state : Value) (* new Error(`Flow failed with state: ${runDetails.state}`) *)
| PollingTimeout.            (* new Error("Polling timeout exceeded") *)

(** How a computation ends.  [Pending] is the model's own: the loop of the
    poller is unrolled a given number of times, and [Pending] says that
    number was too small to see the promise settle. *)
Inductive Completion (A : Type) : Type :=
| Return (a : A)
| Throw (e : Error)
| Pending.
Arguments Return {A} a.
Arguments Throw {A} e.
Arguments Pending {A}.

(** Own property of an object built by JSON.parse: a later duplicate key
    overrides an earlier one. *)
Fixpoint lookup (k : string) (fields : list (string * JSON)) : Value :=
  match fields with
  | [] => None
  | (k', v) :: rest =>
      match lookup k rest with
      | Some v' => Some v'
      | None => if String.eqb k k' then Some v else None
      end
  end.

(** [o.k] for the keys the module reads ("state", "run_id"): a TypeError
    on null, [undefined] on every value that is not an object with that
    key (booleans, numbers, strings and arrays have no such property). *)
Definition member (o : JSON) (k : string) : Completion Value :=
  match o with
  | JNull => Throw (TypeError k)
  | JObj fields => Return (lookup k fields)
  | _ => Return undefined
  end.

(** [v === s] for a string literal [s]. *)
Definition strict_eq (v : Value) (s : string) : bool :=
  match v with
  | Some (JStr x) => String.eqb x s
  | _ => false
  end.

(** [lits.includes(v)] for an array of string literals. *)
Definition includes (lits : list string) (v : Value) : bool :=
  existsb (strict_eq v) lits.

(** Truthiness, as used by [userId && {...}]. *)
Definition truthy (v : Value) : bool :=
  match v with
  | None => false
  | Some JNull => false
  | Some (JBool b) => b
  | Some (JNum n) => negb (n =? 0)
  | Some (JStr s) => negb (String.eqb s "")
  | Some (JArr _) => true
  | Some (JObj _) => true
  end.

(** A default in a destructuring pattern ([projectId = null],
    [timeoutMs = 300000]) applies when the property is [undefined]. *)
Definition default {A : Type} (d : A) (v : option A) : option A :=
  match v with
  | Some x => Some x
  | None => Some d
  end.

(** The same for a numeric option, read as a number. *)
Definition default_num (d : Z) (v : option Z) : Z :=
  match v with
  | Some x => x
  | None => d
  end.

End JS.
Import JS.

(* ===================================================================== *)
(** ** The host: network, clock and timers                                *)
(* ===================================================================== *)

Module Runtime.

(** An outbound call made through node-fetch.  [query] is the object
    given to [new URLSearchParams], [payload] the object given to
    [JSON.stringify]; their serialisation is not modelled. *)
Record Request : Type := {
  method : string;
  url : string;
  query : list (string * Value);
  authorization : string;
  payload : option (list (string * Value))
}.

(** What the code did, in order. *)
Inductive Event : Type :=
| EvFetch (req : Request)         (* fetch(url, options) *)
| EvNow (t : Z)                   (* Date.now() *)
| EvSetTimeout (ms : Z)           (* setTimeout(resolve, ms) *)
| EvConsoleLog (v : Value)        (* console.log("Flow started, run ID:", v) *)
| EvConsoleError (e : Error).     (* console.error("Error in flow execution:", e) *)

(** How a call through [fetch] ends: the promise rejects (the request
    could not be completed) or resolves to a response with a status and a
    body; [None] is a body that is not JSON. *)
Inductive Outcome : Type :=
| Rejected
| Responded (status : Z) (body : option JSON).

Record Reply : Type := {
  latency : Z;       (* milliseconds until the call settles, body read included *)
  outcome : Outcome
}.

Record Response : Type := {
  status : Z;
  body : option JSON
}.

(** The environment of one run: the reply to the k-th outbound call and
    by how many milliseconds the k-th timer fires late. *)
Record Host : Type := {
  net : nat -> Reply;
  lateness : nat -> Z
}.

Record World : Type := {
  now : Z;             (* the clock, in milliseconds *)
  calls : nat;         (* outbound calls made so far *)
  timers : nat;        (* timers armed so far *)
  log : list Event
}.

(** Time does not run backwards: calls take no negative time and timers
    do not fire early. *)
Definition causal (h : Host) : Prop :=
  (forall k, 0 <= latency (net h k)) /\ (forall k, 0 <= lateness h k).

(** Node.js timers: a delay below 1 or above 2^31-1 is set to 1. *)
Definition timer_delay (ms : Z) : Z :=
  if (1 <=? ms) && (ms <=? 2147483647) then ms else 1.

End Runtime.
Import Runtime.

(* ===================================================================== *)
(** ** Asynchronous computations                                          *)
(* ===================================================================== *)

Module Promises.

Definition Async (A : Type) : Type := World -> Completion A * World.

Definition ret {A : Type} (a : A) : Async A := fun w => (Return a, w).

Definition throw {A : Type} (e : Error) : Async A := fun w => (Throw e, w).

Definition pending {A : Type} : Async A := fun w => (Pending, w).

Definition bind {A B : Type} (m : Async A) (k : A -> Async B) : Async B :=
  fun w =>
    match m w with
    | (Return a, w1) => k a w1
    | (Throw e, w1) => (Throw e, w1)
    | (Pending, w1) => (Pending, w1)
    end.

(** [try { m } catch (error) { handler error }] *)
Definition try_catch {A : Type} (m : Async A) (handler : Error -> Async A)
  : Async A :=
  fun w =>
    match m w with
    | (Throw e, w1) => handler e w1
    | r => r
    end.

(** A synchronous step that returns or throws without touching the world. *)
Definition lift {A : Type} (c : Completion A) : Async A := fun w => (c, w).

Definition emit (e : Event) (w : World) : World :=
  {| now := now w; calls := calls w; timers := timers w;
     log := log w ++ [e] |}.

Definition console_log (v : Value) : Async unit :=
  fun w => (Return tt, emit (EvConsoleLog v) w).

Definition console_error (e : Error) : Async unit :=
  fun w => (Return tt, emit (EvConsoleError e) w).

(** [Date.now()] *)
Definition date_now : Async Z :=
  fun w => (Return (now w), emit (EvNow (now w)) w).

Section WithHost.

Variable host : Host.

(** The world once the next outbound call has settled. *)
Definition after_fetch (req : Request) (w : World) : World :=
  {| now := now w + latency (net host (calls w));
     calls := S (calls w);
     timers := timers w;
     log := log w ++ [EvFetch req] |}.

(** [await fetch(url, options)] *)
Definition fetch (req : Request) : Async Response :=
  fun w =>
    match outcome (net host (calls w)) with
    | Rejected => (Throw FetchError, after_fetch req w)
    | Responded s b =>
        (Return {| status := s; body := b |}, after_fetch req w)
    end.

(** The world once a timer of [ms] milliseconds has fired. *)
Definition after_sleep (ms : Z) (w : World) : World :=
  {| now := now w + timer_delay ms + lateness host (timers w);
     calls := calls w;
     timers := S (timers w);
     log := log w ++ [EvSetTimeout ms] |}.

(** [await new Promise((resolve) => setTimeout(resolve, ms))] *)
Definition sleep (ms : Z) : Async unit :=
  fun w => (Return tt, after_sleep ms w).

End WithHost.

(** [response.ok] *)
Definition ok (r : Response) : bool :=
  (200 <=? status r) && (status r <=? 299).

(** [response.json()] *)
Definition json (r : Response) : Async JSON :=
  match body r with
  | Some j => ret j
  | None => throw InvalidJson
  end.

End Promises.
Import Promises.

Declare Scope async_scope.
Delimit Scope async_scope with async.
Notation "x <- m ;; k" := (bind m (fun x => k))
  (at level 100, m at next level, right associativity) : async_scope.
Notation "m ;; k" := (bind m (fun _ => k))
  (at level 100, right associativity) : async_scope.
Local Open Scope async_scope.

(* ===================================================================== *)
(** ** src/utils/gumloopUtil.js                                           *)
(* ===================================================================== *)

Module Gumloop.

(** The object each function destructures.  A function reads the
    properties it names and ignores the others; a property that a caller
    does not pass is [undefined].  The interval and the timeout are whole
    milliseconds, [None] when not passed. *)
Record Options : Type := {
  authToken : string;
  runId : Value;
  userId : Value;
  savedItemId : Value;
  projectId : Value;
  pipelineInputs : Value;
  pollingIntervalMs : option Z;
  timeoutMs : option Z
}.

(** The object returned by [startAndWaitForFlow]. *)
Record FlowResult : Type := {
  startDetails : JSON;
  finalResult : JSON
}.

(** [new URLSearchParams({ run_id: runId, ...(userId && { user_id: userId }),
    ...(projectId && { project_id: projectId }) })] *)
Definition run_params (runId userId projectId : Value)
  : list (string * Value) :=
  [("run_id"%string, runId)]
    ++ (if truthy userId then [("user_id"%string, userId)] else [])
    ++ (if truthy projectId then [("project_id"%string, projectId)] else []).

(** The call [getFlowRunDetails] makes; [projectId = null] is the default
    of its parameter. *)
Definition get_run_request (o : Options) : Request :=
  {| method := "GET";
     url := "https://api.gumloop.com/api/v1/get_pl_run";
     query := run_params (runId o) (userId o) (default JNull (projectId o));
     authorization := "Bearer " ++ authToken o;
     payload := None |}.

(** The call [startGumloopFlow] makes; [projectId = null] and
    [pipelineInputs = []] are the defaults of its parameters. *)
Definition start_pipeline_request (o : Options) : Request :=
  {| method := "POST";
     url := "https://api.gumloop.com/api/v1/start_pipeline";
     query := [];
     authorization := "Bearer " ++ authToken o;
     payload := Some [("user_id"%string, userId o);
                      ("saved_item_id"%string, savedItemId o);
                      ("project_id"%string, default JNull (projectId o));
                      ("pipeline_inputs"%string,
                        default (JArr []) (pipelineInputs o))] |}.

(** What one pass through the body of [while (true)] leaves to the loop:
    a value to return, or nothing, and the loop goes round again. *)
Inductive Pass : Type :=
| Returned (runDetails : JSON)
| Again.

Section WithHost.

Variable host : Host.

(** [async function getFlowRunDetails({ authToken, runId, userId,
    projectId = null })] *)
Definition getFlowRunDetails (o : Options) : Async JSON :=
  response <- fetch host (get_run_request o) ;;
  if negb (ok response) then throw (HttpError (status response))
  else json response.

(** The body of the loop of [pollFlowRunUntilComplete].  [runDetails.state]
    is read up to three times by the source; the reads have no effect and
    give the same value, so it is bound once. *)
Definition poll_pass (o : Options) (startTime : Z) : Async Pass :=
  runDetails <- getFlowRunDetails
    {| authToken := authToken o; runId := runId o; userId := userId o;
       savedItemId := undefined;
       projectId := default JNull (projectId o);
       pipelineInputs := undefined;
       pollingIntervalMs := None; timeoutMs := None |} ;;
  state <- lift (member runDetails "state") ;;
  if strict_eq state "DONE" then ret (Returned runDetails)
  else if includes ["FAILED"; "TERMINATED"]%string state
  then throw (FlowFailed state)
  else
    t <- date_now ;;
    if t - startTime >? default_num 300000 (timeoutMs o)
    then throw PollingTimeout
    else
      sleep host (default_num 2000 (pollingIntervalMs o)) ;;
      ret Again.

(** [while (true) { ... }], unrolled at most [fuel] times. *)
Fixpoint poll_loop (fuel : nat) (o : Options) (startTime : Z) : Async JSON :=
  match fuel with
  | O => pending
  | S fuel' =>
      p <- poll_pass o startTime ;;
      match p with
      | Returned runDetails => ret runDetails
      | Again => poll_loop fuel' o startTime
      end
  end.

(** [async function pollFlowRunUntilComplete({ authToken, runId, userId,
    projectId = null, pollingIntervalMs = 2000, timeoutMs = 300000 })] *)
Definition pollFlowRunUntilComplete (fuel : nat) (o : Options) : Async JSON :=
  startTime <- date_now ;;
  poll_loop fuel o startTime.

(** [async function startGumloopFlow({ authToken, userId, savedItemId,
    projectId = null, pipelineInputs = [] })] *)
Definition startGumloopFlow (o : Options) : Async JSON :=
  response <- fetch host (start_pipeline_request o) ;;
  if negb (ok response) then throw (HttpError (status response))
  else json response.

(** [async function startAndWaitForFlow({ authToken, userId, savedItemId,
    projectId = null, pipelineInputs = [], pollingIntervalMs = 2000,
    timeoutMs = 300000 })].  [flowStart.run_id] is read for the log line
    and again for the poller; it is bound once. *)
Definition startAndWaitForFlow (fuel : nat) (o : Options) : Async FlowResult :=
  try_catch
    (flowStart <- startGumloopFlow
       {| authToken := authToken o; runId := undefined; userId := userId o;
          savedItemId := savedItemId o;
          projectId := default JNull (projectId o);
          pipelineInputs := default (JArr []) (pipelineInputs o);
          pollingIntervalMs := None; timeoutMs := None |} ;;
     run_id <- lift (member flowStart "run_id") ;;
     console_log run_id ;;
     finalResult <- pollFlowRunUntilComplete fuel
       {| authToken := authToken o; runId := run_id; userId := userId o;
          savedItemId := undefined;
          projectId := default JNull (projectId o);
          pipelineInputs := undefined;
          pollingIntervalMs := Some (default_num 2000 (pollingIntervalMs o));
          timeoutMs := Some (default_num 300000 (timeoutMs o)) |} ;;
     ret {| startDetails := flowStart; finalResult := finalResult |})
    (fun error => console_error error ;; throw error).

End WithHost.

End Gumloop.
Import Gumloop.

(* ===================================================================== *)
(** ** Vocabulary of the properties                                       *)
(* ===================================================================== *)

Module Props.

(** The deadline and the interval a call works with, defaults applied. *)
Definition deadline (o : Options) : Z := default_num 300000 (timeoutMs o).
Definition interval (o : Options) : Z := default_num 2000 (pollingIntervalMs o).

(** The three ways a fetched state is classified. *)
Definition is_done (v : Value) : Prop := v = str "DONE".
Definition is_failure (v : Value) : Prop :=
  v = str "FAILED" \/ v = str "TERMINATED".
Definition non_terminal (v : Value) : Prop :=
  v <> str "DONE" /\ v <> str "FAILED" /\ v <> str "TERMINATED".

(** The reply a host gives to its k-th call, read as the fetcher reads it. *)
Definition transport_fails (h : Host) (k : nat) : Prop :=
  outcome (net h k) = Rejected.
Definition http_failure (h : Host) (k : nat) : Prop :=
  exists s b, outcome (net h k) = Responded s b
              /\ ok {| status := s; body := b |} = false.
Definition body_not_json (h : Host) (k : nat) : Prop :=
  exists s, outcome (net h k) = Responded s None
            /\ ok {| status := s; body := None |} = true.
Definition delivers (h : Host) (k : nat) (j : JSON) : Prop :=
  exists s, outcome (net h k) = Responded s (Some j)
            /\ ok {| status := s; body := Some j |} = true.

(** The k-th call fails, and with which error. *)
Definition fetch_fails (h : Host) (k : nat) (e : Error) : Prop :=
  (transport_fails h k /\ e = FetchError)
  \/ (exists s b, outcome (net h k) = Responded s b
                  /\ ok {| status := s; body := b |} = false
                  /\ e = HttpError s)
  \/ (body_not_json h k /\ e = InvalidJson).

(** The k-th reply ends the loop of the poller, and how. *)
Inductive settles (h : Host) (k : nat) : Completion JSON -> Prop :=
| settles_fetch_error e :
    fetch_fails h k e -> settles h k (Throw e)
| settles_no_state j e :
    delivers h k j -> member j "state" = Throw e -> settles h k (Throw e)
| settles_done j :
    delivers h k j -> member j "state" = Return (str "DONE") ->
    settles h k (Return j)
| settles_failure j v :
    delivers h k j -> member j "state" = Return v -> is_failure v ->
    settles h k (Throw (FlowFailed v)).

(** The k-th reply is a status in a state that is not terminal. *)
Definition waits (h : Host) (k : nat) : Prop :=
  exists j v, delivers h k j /\ member j "state" = Return v /\ non_terminal v.

(** No reply of the host reaches a terminal state. *)
Definition never_terminal (h : Host) : Prop := forall k, waits h k.

(** Every payload the host delivers is a run status, not [null]. *)
Definition delivers_statuses (h : Host) : Prop :=
  forall k, ~ delivers h k JNull.

(** Unrollings of the loop that let the poller settle: one pass for every
    wait that can start within the deadline, and one more. *)
Definition poll_bound (o : Options) : nat :=
  S (Z.to_nat (deadline o / timer_delay (interval o) + 1)).

(** The trace of the loop of the poller started at [st], with how it ends:
    passes that fetch, read the clock within the deadline and wait, closed
    by a fetch that settles the call, by a clock read past the deadline, or
    by the end of the unrolling. *)
Inductive poll_trace (o : Options) (st : Z)
  : Completion JSON -> list Event -> Prop :=
| pt_unrolled : poll_trace o st Pending []
| pt_settled r : r <> Pending -> r <> Throw PollingTimeout ->
    poll_trace o st r [EvFetch (get_run_request o)]
| pt_timeout t : t - st > deadline o ->
    poll_trace o st (Throw PollingTimeout)
      [EvFetch (get_run_request o); EvNow t]
| pt_again t r tr : t - st <= deadline o -> poll_trace o st r tr ->
    poll_trace o st r
      (EvFetch (get_run_request o) :: EvNow t
         :: EvSetTimeout (interval o) :: tr).

(** The launches of a trace. *)
Definition is_launch (e : Event) : bool :=
  match e with
  | EvFetch req => String.eqb (method req) "POST"
  | _ => false
  end.

(** The options the facade hands to the launcher. *)
Definition launch_options (o : Options) : Options :=
  {| authToken := authToken o; runId := undefined; userId := userId o;
     savedItemId := savedItemId o;
     projectId := default JNull (projectId o);
     pipelineInputs := default (JArr []) (pipelineInputs o);
     pollingIntervalMs := None; timeoutMs := None |}.

(** The options the facade hands to the poller for a run id. *)
Definition poll_options (o : Options) (run_id : Value) : Options :=
  {| authToken := authToken o; runId := run_id; userId := userId o;
     savedItemId := undefined;
     projectId := default JNull (projectId o);
     pipelineInputs := undefined;
     pollingIntervalMs := Some (interval o);
     timeoutMs := Some (deadline o) |}.

(** Sample hosts and inputs. *)
Definition status_payload (state : string) : JSON :=
  JObj [("state"%string, JStr state)].

Definition delivered (ms : Z) (j : JSON) : Reply :=
  {| latency := ms; outcome := Responded 200 (Some j) |}.

(** Replies from a script, then the last one for ever; timers on time. *)
Definition scripted (script : list Reply) (last : Reply) : Host :=
  {| net := fun k => nth k script last; lateness := fun _ => 0 |}.

(** A service that finds the run in one state, [ms] milliseconds a call. *)
Definition steady (ms : Z) (state : string) : Host :=
  scripted [] (delivered ms (status_payload state)).

(** The same, answering within the millisecond. *)
Definition always (state : string) : Host := steady 0 state.

Definition sample (interval timeout : Z) : Options :=
  {| authToken := "token"; runId := str "run-1"; userId := str "user-1";
     savedItemId := str "item-1"; projectId := undefined;
     pipelineInputs := undefined;
     pollingIntervalMs := Some interval; timeoutMs := Some timeout |}.

Definition boot : World :=
  {| now := 1000; calls := 0; timers := 0; log := [] |}.

(** PENDING, RUNNING, then DONE, five milliseconds a call. *)
Definition three_step : Host :=
  scripted [delivered 5 (status_payload "PENDING");
            delivered 5 (status_payload "RUNNING")]
           (delivered 5 (status_payload "DONE")).

(** A service whose launch answers with a run id and whose runs are DONE. *)
Definition launches_then_done : Host :=
  scripted [delivered 5 (JObj [("run_id"%string, JStr "run-9")])]
           (delivered 5 (status_payload "DONE")).

(** A service that answers 200 with a body that is not JSON. *)
Definition garbled : Host :=
  scripted [] {| latency := 5; outcome := Responded 200 None |}.

(** A service that is down. *)
Definition unreachable : Host :=
  scripted [] {| latency := 5; outcome := Rejected |}.

(** RUNNING once, then the connection fails. *)
Definition drops_second : Host :=
  scripted [delivered 5 (status_payload "RUNNING")]
           {| latency := 5; outcome := Rejected |}.

(** The same, 80 ms a call. *)
Definition slow (state : string) : Host := steady 80 state.

End Props.
Import Props.

(* ===================================================================== *)
(** ** src/routes/openapi.js                                              *)
(* ===================================================================== *)

From Stdlib Require DecimalString DecimalN DecimalPos Permutation.

Module Routes.

(** What the handlers can catch, by origin.  Only an error of axios
    carries [error.response], and only when the server answered. *)
Inductive Exn : Type :=
| RedisError (message : string)        (* a redis command rejected *)
| DereferenceError (message : string)  (* SwaggerParser.dereference rejected *)
| AxiosError (message : string) (response : bool)
| SyntaxError (text : string)          (* JSON.parse(text) threw *)
| TypeErrorRead (prop : string)        (* property read on null or undefined *)
| TypeErrorObject                      (* Object.keys / Object.entries of null or undefined *)
| NeitherJsonNorYaml.                  (* new Error('Content is neither valid JSON nor YAML') *)

(** [error.response], as the handler tests it. *)
Definition has_response (e : Exn) : bool :=
  match e with
  | AxiosError _ response => response
  | _ => false
  end.

(** [v.k] for the keys the routes read ("paths", "url", "summary",
    "description"): no primitive or array has such a property. *)
Definition read (v : Value) (k : string) : Exn + Value :=
  match v with
  | None => inl (TypeErrorRead k)
  | Some JNull => inl (TypeErrorRead k)
  | Some (JObj fields) => inr (lookup k fields)
  | Some _ => inr undefined
  end.

(** *** Object.entries *)

(** The decimal numeral of an index. *)
Definition index_key (i : N) : string :=
  DecimalString.NilZero.string_of_uint (N.to_uint i).

(** An array index: the canonical numeral of an integer below 2^32 - 1. *)
Definition array_index (k : string) : option N :=
  match DecimalString.NilZero.uint_of_string k with
  | Some d =>
      let n := N.of_uint d in
      if String.eqb (index_key n) k && (n <=? 4294967294)%N
      then Some n else None
  | None => None
  end.

(** The keys of a list, each at its first occurrence. *)
Fixpoint distinct (seen : list string) (ks : list string) : list string :=
  match ks with
  | [] => []
  | k :: rest =>
      if existsb (String.eqb k) seen then distinct seen rest
      else k :: distinct (k :: seen) rest
  end.

(** Insertion of an index key among index keys in ascending order. *)
Fixpoint insert_index (n : N) (k : string) (l : list (N * string))
  : list (N * string) :=
  match l with
  | [] => [(n, k)]
  | (m, k') :: rest =>
      if (n <=? m)%N then (n, k) :: l else (m, k') :: insert_index n k rest
  end.

(** The own keys of an object in the order of the language: array indices
    ascending, then the other keys in the order they were created. *)
Fixpoint index_keys (ks : list string) : list (N * string) :=
  match ks with
  | [] => []
  | k :: rest =>
      match array_index k with
      | Some n => insert_index n k (index_keys rest)
      | None => index_keys rest
      end
  end.

Definition named_keys (ks : list string) : list string :=
  filter (fun k => match array_index k with Some _ => false | None => true end)
    ks.

Definition own_keys (fields : list (string * JSON)) : list string :=
  let ks := distinct [] (map fst fields) in
  map snd (index_keys ks) ++ named_keys ks.

Fixpoint indexed (i : N) (items : list JSON) : list (string * JSON) :=
  match items with
  | [] => []
  | x :: rest => (index_key i, x) :: indexed (N.succ i) rest
  end.

(** The characters of a string, one string each (ASCII text). *)
Fixpoint characters (s : string) : list JSON :=
  match s with
  | EmptyString => []
  | String c rest => JStr (String c EmptyString) :: characters rest
  end.

(** [Object.entries(v)]; [Object.keys(v)] is its first components. *)
Definition entries (v : Value) : Exn + list (string * JSON) :=
  match v with
  | None => inl TypeErrorObject
  | Some JNull => inl TypeErrorObject
  | Some (JBool _) => inr []
  | Some (JNum _) => inr []
  | Some (JStr s) => inr (indexed 0 (characters s))
  | Some (JArr items) => inr (indexed 0 items)
  | Some (JObj fields) =>
      inr (flat_map
             (fun k => match lookup k fields with
                       | Some x => [(k, x)]
                       | None => []
                       end)
             (own_keys fields))
  end.

(** *** The server *)

(** What [/full-spec] reports of an operation and of a path. *)
Record MethodInfo : Type := {
  summary : Value;
  description : Value
}.

Record PathSummary : Type := {
  path : string;
  data : list (string * MethodInfo)
}.

(** The bodies the handlers send.  [details] stands for [error.message]:
    the model keeps the error the message belongs to. *)
Inductive Body : Type :=
| ErrorBody (error : string) (details : option Exn)
    (* { error } or { error, details: error.message } *)
| PathsBody (paths : list PathSummary) (message : string)
    (* { paths, message } *)
| FlowBody (path : option string) (pythonResponse : JSON).
    (* { path, pythonResponse } *)

(** What a handler answers: [res.status(code).json(body)], and
    [res.json(body)] with the status 200. *)
Record Response : Type := {
  code : Z;
  body : Body
}.

(** A request made through axios. *)
Inductive Outbound : Type :=
| AxiosGet (url : Value)
| AxiosPost (url : string) (data : JSON).

Inductive HttpReply : Type :=
| HttpOk (data : JSON)                          (* response.data *)
| HttpFailed (message : string) (response : bool).

(** What the process runs on: the built-in and library functions the
    routes call, the faults of redis, the replies to the requests of
    axios, and the environment. *)
Record Platform : Type := {
  stringify : JSON -> string;               (* JSON.stringify *)
  parse : string -> option JSON;            (* JSON.parse; None when it throws *)
  yaml_load : string -> option Value;       (* yaml.load; None when it throws *)
  dereference : Value -> string + JSON;     (* SwaggerParser.dereference *)
  redis_fault : nat -> option string;       (* the k-th redis command rejects *)
  http : nat -> HttpReply;                  (* the reply to the k-th request *)
  python_endpoint : option string           (* process.env.PYTHON_ENDPOINT *)
}.

Record Server : Type := {
  store : string -> option string;   (* the keys of redis *)
  commands : nat;                    (* redis commands issued so far *)
  requests : list Outbound;          (* requests made so far *)
  sent : list Response               (* responses sent so far *)
}.

Definition Route (A : Type) : Type := Server -> (Exn + A) * Server.

Definition ret {A : Type} (a : A) : Route A := fun s => (inr a, s).

Definition throw {A : Type} (e : Exn) : Route A := fun s => (inl e, s).

Definition bind {A B : Type} (m : Route A) (k : A -> Route B) : Route B :=
  fun s =>
    match m s with
    | (inr a, s1) => k a s1
    | (inl e, s1) => (inl e, s1)
    end.

Definition try_catch {A : Type} (m : Route A) (handler : Exn -> Route A)
  : Route A :=
  fun s =>
    match m s with
    | (inl e, s1) => handler e s1
    | r => r
    end.

Definition lift {A : Type} (r : Exn + A) : Route A := fun s => (r, s).

(** [res.status(code).json(body)] *)
Definition send (code : Z) (body : Body) : Route unit :=
  fun s =>
    (inr tt,
     {| store := store s; commands := commands s; requests := requests s;
        sent := sent s ++ [{| code := code; body := body |}] |}).

Definition put (key value : string) (m : string -> option string)
  : string -> option string :=
  fun k => if String.eqb k key then Some value else m k.

(** A step that can throw and does not touch the server. *)
Definition and_then {A B : Type} (r : Exn + A) (k : A -> Exn + B) : Exn + B :=
  match r with
  | inl e => inl e
  | inr a => k a
  end.

(** The methods [/full-spec] reports. *)
Definition http_methods : list string :=
  ["get"; "post"; "put"; "delete"; "patch"]%string.

(** [['get', 'post', 'put', 'delete', 'patch'].includes(method)] *)
Definition is_method (method : string) : bool :=
  existsb (String.eqb method) http_methods.

(** The loop over [Object.entries(pathInfo)] that fills [methods]. *)
Fixpoint describe_methods (es : list (string * JSON))
  : Exn + list (string * MethodInfo) :=
  match es with
  | [] => inr []
  | (method, details) :: rest =>
      if is_method method then
        and_then (read (Some details) "summary") (fun s =>
        and_then (read (Some details) "description") (fun d =>
        and_then (describe_methods rest) (fun methods =>
        inr ((method, {| summary := s; description := d |}) :: methods))))
      else describe_methods rest
  end.

(** [Object.entries(api.paths).map(([path, pathInfo]) => ...)] *)
Fixpoint describe_paths (es : list (string * JSON)) : Exn + list PathSummary :=
  match es with
  | [] => inr []
  | (p, pathInfo) :: rest =>
      and_then (entries (Some pathInfo)) (fun ms =>
      and_then (describe_methods ms) (fun methods =>
      and_then (describe_paths rest) (fun others =>
      inr ({| path := p; data := methods |} :: others))))
  end.

(** [`${path}`] for a query parameter that is a string or absent. *)
Definition text_of (p : option string) : string :=
  match p with
  | Some s => s
  | None => "undefined"
  end.

Section WithPlatform.

Variable plat : Platform.

Definition issued (s : Server) (m : string -> option string) : Server :=
  {| store := m; commands := S (commands s); requests := requests s;
     sent := sent s |}.

(** [await redisClient.set(key, value)]; a command that rejects leaves the
    keys as they were. *)
Definition redis_set (key value : string) : Route unit :=
  fun s =>
    match redis_fault plat (commands s) with
    | Some message => (inl (RedisError message), issued s (store s))
    | None => (inr tt, issued s (put key value (store s)))
    end.

(** [await redisClient.get(key)]; [None] is null. *)
Definition redis_get (key : string) : Route (option string) :=
  fun s =>
    match redis_fault plat (commands s) with
    | Some message => (inl (RedisError message), issued s (store s))
    | None => (inr (store s key), issued s (store s))
    end.

(** [await axios.get(url)] and [await axios.post(url, data, config)],
    giving [response.data]. *)
Definition request (r : Outbound) : Route JSON :=
  fun s =>
    let s1 := {| store := store s; commands := commands s;
                 requests := requests s ++ [r]; sent := sent s |} in
    match http plat (List.length (requests s)) with
    | HttpOk data => (inr data, s1)
    | HttpFailed message response => (inl (AxiosError message response), s1)
    end.

(** [await SwaggerParser.dereference(spec)] *)
Definition deref (spec : Value) : Route JSON :=
  lift (match dereference plat spec with
        | inl message => inl (DereferenceError message)
        | inr api => inr api
        end).

(** The loop of [storePathsInRedis] over [Object.entries(paths)]. *)
Fixpoint store_each (es : list (string * JSON)) : Route unit :=
  match es with
  | [] => ret tt
  | (p, pathInfo) :: rest =>
      bind (redis_set ("path:" ++ p) (stringify plat pathInfo))
        (fun _ => store_each rest)
  end.

(** The keys of redis once the entries have been written in order. *)
Definition written (es : list (string * JSON)) (m : string -> option string)
  : string -> option string :=
  fold_left
    (fun m e => put ("path:" ++ fst e) (stringify plat (snd e)) m) es m.

(** [JSON.stringify(Object.keys(paths))] *)
Definition all_paths_value (es : list (string * JSON)) : string :=
  stringify plat (JArr (map (fun e => JStr (fst e)) es)).

(** [async function storePathsInRedis(paths)] *)
Definition storePathsInRedis (paths : Value) : Route unit :=
  try_catch
    (bind (lift (entries paths)) (fun es =>
     bind (store_each es) (fun _ =>
     redis_set "all_paths" (all_paths_value es))))
    (fun error => throw error).

(** The same function in the second copy of the routes file, which reads
    each key back after writing it. *)
Fixpoint store_each_verified (es : list (string * JSON)) : Route unit :=
  match es with
  | [] => ret tt
  | (p, pathInfo) :: rest =>
      bind (redis_set ("path:" ++ p) (stringify plat pathInfo)) (fun _ =>
      bind (redis_get ("path:" ++ p)) (fun _ =>
      store_each_verified rest))
  end.

Definition storePathsInRedis_verified (paths : Value) : Route unit :=
  try_catch
    (bind (lift (entries paths)) (fun es =>
     bind (store_each_verified es) (fun _ =>
     bind (redis_set "all_paths" (all_paths_value es)) (fun _ =>
     bind (redis_get "all_paths") (fun _ =>
     ret tt)))))
    (fun error => throw error).

(** What both POST handlers do with the dereferenced specification. *)
Definition process (api : JSON) : Route unit :=
  bind (lift (read (Some api) "paths")) (fun paths =>
  bind (if truthy paths then storePathsInRedis paths else ret tt) (fun _ =>
  bind (if truthy paths
        then lift (and_then (entries paths) describe_paths)
        else ret []) (fun detailedPaths =>
  send 200 (PathsBody detailedPaths "Paths stored in Redis successfully")))).

(** [router.post('/full-spec', ...)] on [req.body]. *)
Definition post_full_spec (body : Value) : Route unit :=
  try_catch
    (if negb (truthy body)
     then send 400 (ErrorBody "OpenAPI specification is required" None)
     else bind (deref body) process)
    (fun error =>
       send 400 (ErrorBody "Invalid OpenAPI specification" (Some error))).

(** The conversion of [response.data] when it is a string: JSON first,
    then YAML. *)
Definition to_spec (data : JSON) : Route Value :=
  match data with
  | JStr text =>
      match parse plat text with
      | Some v => ret (Some v)
      | None =>
          match yaml_load plat text with
          | Some v => ret v
          | None => throw NeitherJsonNorYaml
          end
      end
  | _ => ret (Some data)
  end.

(** [router.post('/full-spec-from-url', ...)] on [req.body]. *)
Definition post_full_spec_from_url (body : Value) : Route unit :=
  try_catch
    (bind (lift (read body "url")) (fun url =>
     if negb (truthy url)
     then send 400 (ErrorBody "URL is required" None)
     else
       bind (request (AxiosGet url)) (fun data =>
       bind (to_spec data) (fun specData =>
       bind (deref specData) process))))
    (fun error =>
       if has_response error
       then send 400 (ErrorBody "Failed to fetch OpenAPI specification"
                        (Some error))
       else send 400 (ErrorBody "Invalid OpenAPI specification"
                        (Some error))).

(** [process.env.PYTHON_ENDPOINT || 'http://localhost:8000'] *)
Definition endpoint : string :=
  match python_endpoint plat with
  | Some e => if String.eqb e "" then "http://localhost:8000" else e
  | None => "http://localhost:8000"
  end.

(** The body posted to the Python backend. *)
Definition flow_payload (p : option string) (parsedPathInfo : JSON) : JSON :=
  JObj [("flowType"%string, JStr "single-tool-raw");
        ("pipelineInputs"%string,
          JArr [JObj [("input_name"%string, JStr "input");
                      ("value"%string,
                        JStr (stringify plat
                                (JObj ((match p with
                                        | Some t => [("path"%string, JStr t)]
                                        | None => []
                                        end)
                                       ++ [("data"%string, parsedPathInfo)]))))]])].

(** [router.get('/paths', ...)] on [req.query.path], a string or absent
    (a repeated or nested parameter, which the parser of express turns
    into an array or an object, is not modelled). *)
Definition get_paths (p : option string) : Route unit :=
  try_catch
    (bind (redis_get ("path:" ++ text_of p)) (fun pathInfo =>
     match pathInfo with
     | None => send 404 (ErrorBody "Path not found in database" None)
     | Some text =>
         if String.eqb text ""
         then send 404 (ErrorBody "Path not found in database" None)
         else
           match parse plat text with
           | None => throw (SyntaxError text)
           | Some parsedPathInfo =>
               bind (request (AxiosPost (endpoint ++ "/api/flow-start")
                                (flow_payload p parsedPathInfo)))
                 (fun response => send 200 (FlowBody p response))
           end
     end))
    (fun error =>
       send 500 (ErrorBody "Error processing request" (Some error))).

End WithPlatform.

(** *** Sample platforms *)

(** A serialiser and a parser that agree on the values of the examples. *)
Definition toy_stringify (j : JSON) : string :=
  match j with
  | JNull => "null"
  | JBool true => "true"
  | JBool false => "false"
  | JObj [] => "{}"
  | JArr [] => "[]"
  | _ => "[object]"
  end.

Definition toy_parse (text : string) : option JSON :=
  if String.eqb text "null" then Some JNull
  else if String.eqb text "true" then Some (JBool true)
  else if String.eqb text "false" then Some (JBool false)
  else if String.eqb text "{}" then Some (JObj [])
  else if String.eqb text "[]" then Some (JArr [])
  else None.

(** A platform whose dereferencing gives the specification back. *)
Definition toy (faults : nat -> option string) (replies : nat -> HttpReply)
  : Platform :=
  {| stringify := toy_stringify;
     parse := toy_parse;
     yaml_load := fun _ => None;
     dereference := fun spec => match spec with
                                | Some j => inr j
                                | None => inl "nothing to dereference"%string
                                end;
     redis_fault := faults;
     http := replies;
     python_endpoint := None |}.

Definition healthy : Platform :=
  toy (fun _ => None) (fun _ => HttpOk (JObj [])).

Definition fresh : Server :=
  {| store := fun _ => None; commands := 0; requests := []; sent := [] |}.

(** Two paths with empty items. *)
Definition two_paths : Value :=
  Some (JObj [("/pets"%string, JObj []); ("/owners"%string, JObj [])]).

(** A specification whose only operation is [null]. *)
Definition null_operation : JSON :=
  JObj [("paths"%string,
          JObj [("/pets"%string, JObj [("get"%string, JNull)])])].

End Routes.

(* ===================================================================== *)
(** ** Basic facts                                                        *)
(* ===================================================================== *)

Lemma strict_eq_true v s : strict_eq v s = true <-> v = str s.
Proof.
  unfold strict_eq, str; split.
  - destruct v as [[| | |x| |]|]; try discriminate.
    intros H; apply String.eqb_eq in H; now subst.
  - intros ->. apply String.eqb_refl.
Qed.

Lemma strict_eq_false v s : strict_eq v s = false <-> v <> str s.
Proof.
  rewrite <- strict_eq_true. destruct (strict_eq v s); split; congruence.
Qed.

Lemma includes_failure v :
  includes ["FAILED"; "TERMINATED"]%string v = true <-> is_failure v.
Proof.
  unfold includes, is_failure; cbn [existsb].
  rewrite !orb_true_iff, !strict_eq_true. intuition discriminate.
Qed.

Lemma not_includes_failure v :
  includes ["FAILED"; "TERMINATED"]%string v = false <->
  v <> str "FAILED" /\ v <> str "TERMINATED".
Proof.
  unfold includes; cbn [existsb].
  rewrite !orb_false_iff, !strict_eq_false. intuition.
Qed.

Lemma default_idem {A : Type} (d : A) v : default d (default d v) = default d v.
Proof. now destruct v. Qed.

Lemma timer_delay_pos ms : 1 <= timer_delay ms.
Proof.
  unfold timer_delay.
  destruct (1 <=? ms) eqn:E1; cbn [andb]; [|lia].
  destruct (ms <=? 2147483647); lia.
Qed.

Lemma timer_delay_in_range ms :
  1 <= ms <= 2147483647 -> timer_delay ms = ms.
Proof.
  intros [H1 H2]. unfold timer_delay.
  apply Z.leb_le in H1, H2. now rewrite H1, H2.
Qed.

Section Passes.

Variable host : Host.

(** The fetcher and the launcher make one call and read its reply. *)
Lemma getFlowRunDetails_eq o w :
  getFlowRunDetails host o w =
  (match outcome (net host (calls w)) with
   | Rejected => Throw FetchError
   | Responded s b =>
       if ok {| status := s; body := b |}
       then match b with Some j => Return j | None => Throw InvalidJson end
       else Throw (HttpError s)
   end, after_fetch host (get_run_request o) w).
Proof.
  unfold getFlowRunDetails, bind, fetch.
  destruct (outcome (net host (calls w))) as [|s b]; [reflexivity|].
  destruct (ok _) eqn:E; cbn [negb]; [|reflexivity].
  unfold json; cbn [body]. now destruct b.
Qed.

Lemma startGumloopFlow_eq o w :
  startGumloopFlow host o w =
  (match outcome (net host (calls w)) with
   | Rejected => Throw FetchError
   | Responded s b =>
       if ok {| status := s; body := b |}
       then match b with Some j => Return j | None => Throw InvalidJson end
       else Throw (HttpError s)
   end, after_fetch host (start_pipeline_request o) w).
Proof.
  unfold startGumloopFlow, bind, fetch.
  destruct (outcome (net host (calls w))) as [|s b]; [reflexivity|].
  destruct (ok _) eqn:E; cbn [negb]; [|reflexivity].
  unfold json; cbn [body]. now destruct b.
Qed.

Lemma getFlowRunDetails_world o w r w1 :
  getFlowRunDetails host o w = (r, w1) ->
  w1 = after_fetch host (get_run_request o) w.
Proof. rewrite getFlowRunDetails_eq. congruence. Qed.

Lemma getFlowRunDetails_settles o w : fst (getFlowRunDetails host o w) <> Pending.
Proof.
  rewrite getFlowRunDetails_eq; cbn [fst].
  destruct (outcome _) as [|s b]; [discriminate|].
  destruct (ok _); [destruct b|]; discriminate.
Qed.

Lemma getFlowRunDetails_delivers o w j w1 :
  getFlowRunDetails host o w = (Return j, w1) <->
  delivers host (calls w) j /\ w1 = after_fetch host (get_run_request o) w.
Proof.
  rewrite getFlowRunDetails_eq. unfold delivers. split.
  - intros H. injection H as H1 H2. split; [|now symmetry].
    destruct (outcome _) as [|s b]; [discriminate|].
    destruct (ok _) eqn:E; [|discriminate].
    destruct b as [j'|]; [|discriminate].
    injection H1 as ->. exists s. now split.
  - intros [[s [H1 H2]] ->]. rewrite H1, H2. reflexivity.
Qed.

(** The poller fetches with the run id, user id and project id it was
    given: the object it builds for the fetcher makes the same request. *)
Lemma poll_pass_fetch o st w :
  poll_pass host o st w =
  bind (getFlowRunDetails host o)
    (fun runDetails =>
       state <- lift (member runDetails "state") ;;
       if strict_eq state "DONE" then ret (Returned runDetails)
       else if includes ["FAILED"; "TERMINATED"]%string state
       then throw (FlowFailed state)
       else
         t <- date_now ;;
         if t - st >? deadline o then throw PollingTimeout
         else sleep host (interval o) ;; ret Again) w.
Proof.
  unfold poll_pass, bind. rewrite !getFlowRunDetails_eq.
  unfold get_run_request; cbn [runId userId projectId authToken].
  rewrite default_idem. reflexivity.
Qed.

(** A failed fetch ends the loop with the error of the fetch. *)
Lemma poll_loop_fetch_throws n o st w e w1 :
  getFlowRunDetails host o w = (Throw e, w1) ->
  poll_loop host (S n) o st w = (Throw e, w1).
Proof.
  intros H. cbn [poll_loop]. unfold bind at 1.
  rewrite poll_pass_fetch. unfold bind at 1. now rewrite H.
Qed.

(** A payload whose state cannot be read ends it with the TypeError. *)
Lemma poll_loop_member_throws n o st w j w1 e :
  getFlowRunDetails host o w = (Return j, w1) ->
  member j "state" = Throw e ->
  poll_loop host (S n) o st w = (Throw e, w1).
Proof.
  intros H Hm. cbn [poll_loop]. unfold bind at 1.
  rewrite poll_pass_fetch. unfold bind at 1. rewrite H.
  unfold bind, lift. now rewrite Hm.
Qed.

Lemma poll_loop_done n o st w j w1 :
  getFlowRunDetails host o w = (Return j, w1) ->
  member j "state" = Return (str "DONE") ->
  poll_loop host (S n) o st w = (Return j, w1).
Proof.
  intros H Hm. cbn [poll_loop]. unfold bind at 1.
  rewrite poll_pass_fetch. unfold bind at 1. rewrite H.
  unfold bind, lift. rewrite Hm. reflexivity.
Qed.

Lemma poll_loop_failure n o st w j w1 v :
  getFlowRunDetails host o w = (Return j, w1) ->
  member j "state" = Return v ->
  is_failure v ->
  poll_loop host (S n) o st w = (Throw (FlowFailed v), w1).
Proof.
  intros H Hm Hv. cbn [poll_loop]. unfold bind at 1.
  rewrite poll_pass_fetch. unfold bind at 1. rewrite H.
  unfold bind, lift. rewrite Hm.
  assert (strict_eq v "DONE" = false) as ->
    by (apply strict_eq_false; destruct Hv as [-> | ->]; discriminate).
  apply includes_failure in Hv. now rewrite Hv.
Qed.

Lemma poll_loop_non_terminal n o st w j w1 v :
  getFlowRunDetails host o w = (Return j, w1) ->
  member j "state" = Return v ->
  non_terminal v ->
  poll_loop host (S n) o st w =
  if now w1 - st >? deadline o
  then (Throw PollingTimeout, emit (EvNow (now w1)) w1)
  else poll_loop host n o st
         (after_sleep host (interval o) (emit (EvNow (now w1)) w1)).
Proof.
  intros H Hm (Hd & Hf & Ht). cbn [poll_loop]. unfold bind at 1.
  rewrite poll_pass_fetch. unfold bind at 1. rewrite H.
  unfold bind, lift. rewrite Hm.
  apply strict_eq_false in Hd. rewrite Hd.
  assert (includes ["FAILED"; "TERMINATED"]%string v = false) as ->
    by (now apply not_includes_failure).
  unfold date_now, deadline, interval.
  destruct (_ >? _); reflexivity.
Qed.

(** Every value that can be fetched falls in one of the three classes. *)
Lemma state_classes v : is_done v \/ is_failure v \/ non_terminal v.
Proof.
  unfold is_done, is_failure, non_terminal.
  destruct (strict_eq v "DONE") eqn:E1; [left; now apply strict_eq_true|].
  destruct (strict_eq v "FAILED") eqn:E2;
    [right; left; left; now apply strict_eq_true|].
  destruct (strict_eq v "TERMINATED") eqn:E3;
    [right; left; right; now apply strict_eq_true|].
  right; right. now rewrite <- !strict_eq_false.
Qed.

Lemma getFlowRunDetails_throws o w e w1 :
  getFlowRunDetails host o w = (Throw e, w1) <->
  fetch_fails host (calls w) e /\ w1 = after_fetch host (get_run_request o) w.
Proof.
  rewrite getFlowRunDetails_eq.
  unfold fetch_fails, transport_fails, body_not_json. split.
  - intros H. injection H as H1 H2. split; [|now symmetry].
    destruct (outcome _) as [|s b].
    + injection H1 as <-. now left.
    + destruct (ok _) eqn:E.
      * destruct b as [j|]; [discriminate|]. injection H1 as <-.
        right; right. split; [|reflexivity]. exists s. now split.
      * injection H1 as <-. right; left. exists s, b. now repeat split.
  - intros [[[H ->] | [(s & b & H & Hok & ->) | [(s & H & Hok) ->]]] ->];
      rewrite H; [reflexivity| |]; now rewrite Hok.
Qed.

(** What one more unrolling of the loop does, by the reply to its fetch. *)
Lemma poll_loop_inv n o st w :
  let w1 := after_fetch host (get_run_request o) w in
  let w2 := emit (EvNow (now w1)) w1 in
  (exists r, settles host (calls w) r
             /\ poll_loop host (S n) o st w = (r, w1))
  \/ (waits host (calls w) /\ now w1 - st > deadline o
      /\ poll_loop host (S n) o st w = (Throw PollingTimeout, w2))
  \/ (waits host (calls w) /\ now w1 - st <= deadline o
      /\ poll_loop host (S n) o st w =
         poll_loop host n o st (after_sleep host (interval o) w2)).
Proof.
  intros w1 w2.
  destruct (getFlowRunDetails host o w) as [[j|e|] w1'] eqn:F.
  - pose proof F as F'. apply getFlowRunDetails_delivers in F' as [Hd ->].
    fold w1 in F.
    destruct (member j "state") as [v|e|] eqn:M.
    + destruct (state_classes v) as [Hv | [Hv | Hv]].
      * left. exists (Return j). unfold is_done in Hv; subst v.
        split; [now apply settles_done|now apply poll_loop_done].
      * left. exists (Throw (FlowFailed v)).
        split; [now apply settles_failure with j
               |now apply poll_loop_failure with j].
      * right. rewrite (poll_loop_non_terminal n o st w j w1 v F M Hv).
        fold w2. destruct (now w1 - st >? deadline o) eqn:E.
        -- left. apply Z.gtb_lt in E.
           repeat split; [now exists j, v|lia].
        -- right. rewrite Z.gtb_ltb in E. apply Z.ltb_ge in E.
           repeat split; [now exists j, v|lia].
    + left. exists (Throw e).
      split; [now apply settles_no_state with j
             |now apply poll_loop_member_throws with j].
    + destruct j; discriminate.
  - pose proof F as F'. apply getFlowRunDetails_throws in F' as [Hd ->].
    left. exists (Throw e).
    split; [now apply settles_fetch_error|now apply poll_loop_fetch_throws].
  - exfalso. apply (getFlowRunDetails_settles o w). now rewrite F.
Qed.

(** A reply that settles the loop leaves neither a pending promise nor a
    timeout. *)
Lemma settles_not_pending k r : settles host k r -> r <> Pending.
Proof. destruct 1; discriminate. Qed.

Lemma settles_not_timeout k r : settles host k r -> r <> Throw PollingTimeout.
Proof.
  destruct 1 as [e [[_ ->] | [(s & b & _ & _ & ->) | [_ ->]]]|j e _ M| |];
    try discriminate.
  destruct j; try discriminate. cbn in M. congruence.
Qed.

Lemma settles_waits_excl k r : settles host k r -> waits host k -> False.
Proof.
  unfold waits, delivers.
  intros Hs (j & v & (s & Ho & Hok) & Hm & Hd & Hf & Ht).
  destruct Hs as [e [[H _] | [(s' & b & H & Hok' & _) | [(s' & H & _) _]]]
                 |j' e (s' & H & _) M|j' (s' & H & _) M
                 |j' v' (s' & H & _) M [Hv | Hv]];
    unfold transport_fails in *; rewrite Ho in H;
    try discriminate; injection H as <- <-; congruence.
Qed.

End Passes.

(* ===================================================================== *)
(** ** The loop of the poller                                             *)
(* ===================================================================== *)

Section Loop.

Variable host : Host.
Variable o : Options.
Variable st : Z.

Local Abbreviation req := (get_run_request o).

(** Induction along the passes of the loop. *)
Lemma poll_loop_passes (P : nat -> World -> Completion JSON -> World -> Prop) :
  (forall w, P O w Pending w) ->
  (forall n w r,
      settles host (calls w) r ->
      P (S n) w r (after_fetch host req w)) ->
  (forall n w,
      waits host (calls w) ->
      now (after_fetch host req w) - st > deadline o ->
      P (S n) w (Throw PollingTimeout)
        (emit (EvNow (now (after_fetch host req w))) (after_fetch host req w))) ->
  (forall n w r w',
      waits host (calls w) ->
      now (after_fetch host req w) - st <= deadline o ->
      let w3 := after_sleep host (interval o)
                  (emit (EvNow (now (after_fetch host req w)))
                     (after_fetch host req w)) in
      poll_loop host n o st w3 = (r, w') ->
      P n w3 r w' ->
      P (S n) w r w') ->
  forall n w r w', poll_loop host n o st w = (r, w') -> P n w r w'.
Proof.
  intros H0 Hs Ht Ha. induction n as [|n IH]; intros w r w' E.
  - cbn in E. injection E as <- <-. apply H0.
  - destruct (poll_loop_inv host n o st w)
      as [(r' & Hr & E') | [(Hw & Hd & E') | (Hw & Hd & E')]];
      rewrite E' in E.
    + injection E as <- <-. now apply Hs.
    + injection E as <- <-. now apply Ht.
    + apply Ha; [assumption..|]. now apply IH.
Qed.

(** More unrollings do not change a settled result. *)
Lemma poll_loop_more n w r w' :
  poll_loop host n o st w = (r, w') -> r <> Pending ->
  forall m, (n <= m)%nat -> poll_loop host m o st w = (r, w').
Proof.
  revert w. induction n as [|n IH]; intros w E Hr m Hm.
  - cbn in E. injection E as <- <-. congruence.
  - destruct m as [|m]; [lia|].
    cbn [poll_loop] in *. unfold bind in *.
    destruct (poll_pass host o st w) as [[[j|]|e|] w1]; try assumption.
    apply IH; [assumption..|lia].
Qed.

(** The loop only adds to the log, and what it adds is a poller trace. *)
Lemma poll_loop_trace n w r w' :
  poll_loop host n o st w = (r, w') ->
  exists tr, log w' = log w ++ tr /\ poll_trace o st r tr.
Proof.
  revert n w r w'. apply poll_loop_passes.
  - intros w. exists []. split; [now rewrite app_nil_r|constructor].
  - intros n w r Hr. exists [EvFetch req]. split; [reflexivity|].
    apply pt_settled;
      [eapply settles_not_pending|eapply settles_not_timeout]; eassumption.
  - intros n w _ Hd. eexists. split; [|apply pt_timeout; exact Hd].
    cbn [log emit after_fetch]. now rewrite <- app_assoc.
  - intros n w r w' _ Hd w3 _ (tr & El & Htr).
    eexists. split; [|apply pt_again; [exact Hd|exact Htr]].
    rewrite El. unfold w3. cbn [log emit after_fetch after_sleep].
    now rewrite <- !app_assoc.
Qed.

(** Each pass makes one call. *)
Lemma poll_loop_calls n w r w' :
  poll_loop host n o st w = (r, w') ->
  (calls w <= calls w' <= calls w + n)%nat
  /\ (r <> Pending -> (calls w < calls w')%nat).
Proof.
  revert n w r w'. apply poll_loop_passes.
  - intros w. split; [lia|congruence].
  - intros n w r _. cbn [calls after_fetch]. split; lia.
  - intros n w _ _. cbn [calls after_fetch emit]. split; lia.
  - intros n w r w' _ _ w3 _ [IH1 IH2]. unfold w3 in *.
    cbn [calls after_fetch emit after_sleep] in *. split; lia.
Qed.

(** What the loop can end with: a reply that settles it, or a timeout. *)
Lemma poll_loop_result n w r w' :
  poll_loop host n o st w = (r, w') ->
  r = Pending
  \/ r = Throw PollingTimeout
  \/ exists w0, settles host (calls w0) r /\ w' = after_fetch host req w0.
Proof.
  revert n w r w'. apply poll_loop_passes.
  - now left.
  - intros n w r Hr. right; right. now exists w.
  - intros. right; now left.
  - intros n w r w' _ _ w3 _ IH. exact IH.
Qed.

Section Timing.

Hypothesis host_causal : causal host.

Local Abbreviation delay := (timer_delay (interval o)).

(** The clock does not go back over a fetch or a wait. *)
Lemma after_fetch_now w : now w <= now (after_fetch host req w).
Proof. destruct host_causal as [H _]. cbn. specialize (H (calls w)). lia. Qed.

Lemma after_sleep_now ms w :
  now w + timer_delay ms <= now (after_sleep host ms w).
Proof. destruct host_causal as [_ H]. cbn. specialize (H (timers w)). lia. Qed.

(** Once the deadline has passed, the next pass is the last. *)
Lemma poll_loop_last_pass n w r w' :
  now w - st > deadline o ->
  poll_loop host (S n) o st w = (r, w') ->
  r <> Pending /\ calls w' = S (calls w).
Proof.
  intros Hd E. pose proof (after_fetch_now w) as Hn.
  destruct (poll_loop_inv host n o st w)
    as [(r' & Hr & E') | [(Hw & Hd' & E') | (Hw & Hd' & E')]];
    [| |lia]; rewrite E' in E; injection E as <- <-.
  - split; [eapply settles_not_pending; eassumption|reflexivity].
  - split; [discriminate|reflexivity].
Qed.

(** The loop settles within one pass per wait that fits in what is left of
    the deadline, plus one. *)
Lemma poll_loop_settles n w :
  deadline o - (now w - st) < Z.of_nat n * delay ->
  fst (poll_loop host (S n) o st w) <> Pending.
Proof.
  revert w. induction n as [|n IH]; intros w Hn.
  - destruct (poll_loop host 1 o st w) as [r w'] eqn:E.
    apply poll_loop_last_pass in E; [tauto|lia].
  - pose proof (after_fetch_now w) as Hf.
    destruct (poll_loop_inv host (S n) o st w)
      as [(r' & Hr & E') | [(Hw & Hd' & E') | (Hw & Hd' & E')]];
      rewrite E'; cbn [fst].
    + eapply settles_not_pending; eassumption.
    + discriminate.
    + apply IH.
      pose proof (after_sleep_now (interval o)
                    (emit (EvNow (now (after_fetch host req w)))
                       (after_fetch host req w))) as Hs.
      cbn [now emit] in Hs. lia.
Qed.

(** Enough unrollings: the count of [poll_bound]. *)
Lemma poll_bound_covers :
  deadline o < Z.of_nat (Z.to_nat (deadline o / delay + 1)) * delay.
Proof.
  pose proof (timer_delay_pos (interval o)) as Hp.
  pose proof (Z.div_mod (deadline o) delay ltac:(lia)) as Hd.
  pose proof (Z.mod_pos_bound (deadline o) delay ltac:(lia)) as Hm.
  assert (Z.of_nat (Z.to_nat (deadline o / delay + 1))
          = Z.max 0 (deadline o / delay + 1)) as -> by lia.
  nia.
Qed.

End Timing.

End Loop.

(** With [poll_bound] unrollings the poller settles, and more change nothing. *)
Lemma poller_settles host o w fuel :
  causal host ->
  (poll_bound o <= fuel)%nat ->
  fst (pollFlowRunUntilComplete host fuel o w) <> Pending
  /\ pollFlowRunUntilComplete host fuel o w
     = pollFlowRunUntilComplete host (poll_bound o) o w.
Proof.
  intros Hc Hf. unfold pollFlowRunUntilComplete, bind, date_now.
  assert (fst (poll_loop host (poll_bound o) o (now w) (emit (EvNow (now w)) w))
          <> Pending) as Hs.
  { apply poll_loop_settles; [exact Hc|]. cbn [now emit].
    pose proof (poll_bound_covers o). lia. }
  destruct (poll_loop host (poll_bound o) o (now w) (emit (EvNow (now w)) w))
    as [r w'] eqn:E. cbn [fst] in Hs.
  rewrite (poll_loop_more _ _ _ _ _ _ _ E Hs fuel Hf). now split.
Qed.

(** The poller reads the clock once and enters the loop. *)
Lemma pollFlowRunUntilComplete_eq host fuel o w :
  pollFlowRunUntilComplete host fuel o w =
  poll_loop host fuel o (now w) (emit (EvNow (now w)) w).
Proof. reflexivity. Qed.

(** Reading a trace of the poller. *)
Lemma poll_trace_fetch_preceded o st r tr :
  poll_trace o st r tr ->
  forall pre rq post,
    tr = pre ++ EvFetch rq :: post -> pre <> [] ->
    exists pre' t,
      pre = pre' ++ [EvNow t; EvSetTimeout (interval o)]
      /\ t - st <= deadline o.
Proof.
  induction 1 as [|r Hp Ht|t Hd|t r tr Hd Htr IH]; intros pre rq post E Hne.
  - now destruct pre.
  - destruct pre as [|e [|e' pre]]; [congruence|discriminate..].
  - destruct pre as [|e [|e' [|e'' pre]]]; [congruence|discriminate..].
  - destruct pre as [|e1 [|e2 [|e3 pre]]]; [congruence|discriminate..|].
    injection E as <- <- <- E.
    destruct pre as [|e pre].
    + exists [EvFetch (get_run_request o)], t. now split.
    + destruct (IH (e :: pre) rq post E ltac:(discriminate))
        as (pre' & t' & Ep & Ht').
      exists (EvFetch (get_run_request o) :: EvNow t
                :: EvSetTimeout (interval o) :: pre'), t'.
      rewrite Ep. now split.
Qed.

Lemma poll_trace_exceeded_last o st r tr :
  poll_trace o st r tr ->
  forall pre t post,
    tr = pre ++ EvNow t :: post -> t - st > deadline o ->
    post = [] /\ r = Throw PollingTimeout.
Proof.
  induction 1 as [|r Hp Ht|t Hd|t r tr Hd Htr IH]; intros pre t' post E Hx.
  - now destruct pre.
  - destruct pre as [|e [|e' pre]]; discriminate.
  - destruct pre as [|e [|e' [|e'' pre]]]; try discriminate.
    injection E as _ <-. now split.
  - destruct pre as [|e1 [|e2 [|e3 pre]]]; try discriminate.
    + injection E as _ E _. lia.
    + injection E as _ _ _ E. now apply (IH pre t' post).
Qed.

Lemma poll_trace_fetches o st r tr :
  poll_trace o st r tr ->
  forall rq, In (EvFetch rq) tr -> rq = get_run_request o.
Proof.
  induction 1 as [|r Hp Ht|t Hd|t r tr Hd Htr IH]; intros rq Hin;
    cbn in Hin; repeat (destruct Hin as [Hin|Hin]; [congruence|]);
    [contradiction..|now apply IH].
Qed.

(* ===================================================================== *)
(** ** Sample hosts                                                       *)
(* ===================================================================== *)

Lemma scripted_causal script last :
  Forall (fun r => 0 <= latency r) script -> 0 <= latency last ->
  causal (scripted script last).
Proof.
  intros Hs Hl. split; intros k; cbn; [|lia].
  revert k. induction Hs as [|r script Hr _ IH]; intros [|k]; cbn; auto.
Qed.

Lemma steady_causal ms state : 0 <= ms -> causal (steady ms state).
Proof. intros H. now apply scripted_causal; [constructor|cbn]. Qed.

Lemma steady_delivers ms state k :
  delivers (steady ms state) k (status_payload state).
Proof. exists 200. unfold steady; cbn. now destruct k. Qed.

Lemma steady_never_terminal ms state :
  state <> "DONE"%string -> state <> "FAILED"%string ->
  state <> "TERMINATED"%string ->
  never_terminal (steady ms state).
Proof.
  intros H1 H2 H3 k. exists (status_payload state), (str state).
  split; [apply steady_delivers|]. split.
  - reflexivity.
  - unfold non_terminal, str. repeat split; congruence.
Qed.

Lemma always_causal state : causal (always state).
Proof. now apply steady_causal. Qed.

Lemma always_never_terminal state :
  state <> "DONE"%string -> state <> "FAILED"%string ->
  state <> "TERMINATED"%string ->
  never_terminal (always state).
Proof. apply steady_never_terminal. Qed.

(** The runs the specification lists as tests.  PENDING, RUNNING, DONE with
    a 10 ms interval: the DONE status after three fetches and at least
    20 ms. *)
Example pending_running_done :
  let run := pollFlowRunUntilComplete three_step 5 (sample 10 10000) boot in
  fst run = Return (status_payload "DONE")
  /\ calls (snd run) = 3%nat
  /\ 20 <= now (snd run) - now boot.
Proof. vm_compute. repeat split; discriminate. Qed.

(** RUNNING, FAILED: the failure of the run after two fetches. *)
Example running_failed :
  let run := pollFlowRunUntilComplete
               (scripted [delivered 5 (status_payload "RUNNING")]
                         (delivered 5 (status_payload "FAILED")))
               5 (sample 10 10000) boot in
  fst run = Throw (FlowFailed (str "FAILED")) /\ calls (snd run) = 2%nat.
Proof. vm_compute. now split. Qed.

(** Never terminal, [timeoutMs = 50], [intervalMs = 10]: the timeout
    between 50 and 70 ms. *)
Example never_done_times_out :
  let run := pollFlowRunUntilComplete (steady 1 "RUNNING") 10 (sample 10 50)
               boot in
  fst run = Throw PollingTimeout /\ 50 <= now (snd run) - now boot <= 70.
Proof. vm_compute. repeat split; discriminate. Qed.

(** A payload that is [null] is not a run status: reading its state throws
    a TypeError, which the poller lets through. *)
Remark null_payload_throws :
  fst (pollFlowRunUntilComplete (scripted [] (delivered 5 JNull)) 5
         (sample 10 50) boot)
  = Throw (TypeError "state").
Proof. reflexivity. Qed.

Lemma three_step_causal : causal three_step.
Proof. apply scripted_causal; [repeat constructor|]; cbn; lia. Qed.

Lemma three_step_statuses : delivers_statuses three_step.
Proof.
  intros k (s & H & _).
  destruct k as [|[|[|k]]]; cbn in H; discriminate.
Qed.

(* ===================================================================== *)
(** ** The completion poller                                              *)
(* ===================================================================== *)

(** C1.  The poller never returns a status whose state is not DONE, for any
    host and any number of unrollings.  On a host where time does not run
    backwards and every delivered payload is a run status, the poller
    settles within [poll_bound] unrollings, and then it has returned a
    status in state DONE, or thrown the failure of a run in state FAILED or
    TERMINATED, the timeout, or the error of a fetch, in the world that
    fetch left. *)
Theorem poller_returns_only_done host o w :
  (forall fuel j w',
      pollFlowRunUntilComplete host fuel o w = (Return j, w') ->
      member j "state" = Return (str "DONE"))
  /\ (causal host -> delivers_statuses host ->
      forall fuel, (poll_bound o <= fuel)%nat ->
        match pollFlowRunUntilComplete host fuel o w with
        | (Return j, _) => member j "state" = Return (str "DONE")
        | (Throw e, w') =>
            e = PollingTimeout
            \/ (exists v, e = FlowFailed v /\ is_failure v)
            \/ (exists w0, getFlowRunDetails host o w0 = (Throw e, w'))
        | (Pending, _) => False
        end).
Proof.
  split.
  - intros fuel j w' E. rewrite pollFlowRunUntilComplete_eq in E.
    apply poll_loop_result in E as [E | [E | (w0 & Hs & _)]];
      [discriminate..|].
    now inversion Hs.
  - intros Hc Hd fuel Hf.
    destruct (poller_settles host o w fuel Hc Hf) as [Hp _].
    destruct (pollFlowRunUntilComplete host fuel o w) as [[j|e|] w'] eqn:E;
      cbn [fst] in Hp; [| |congruence];
      rewrite pollFlowRunUntilComplete_eq in E;
      apply poll_loop_result in E as [E | [E | (w0 & Hs & ->)]];
      try discriminate.
    + now inversion Hs.
    + injection E as ->. now left.
    + right. inversion Hs as [e' F|j e' D M| |j v D M V]; subst.
      * right. exists w0. now apply getFlowRunDetails_throws.
      * destruct j; try discriminate. now apply Hd in D.
      * left. now exists v.
Qed.

Lemma poller_returns_only_done_witness :
  causal three_step /\ delivers_statuses three_step
  /\ (poll_bound (sample 10 100) <= 12)%nat
  /\ match pollFlowRunUntilComplete three_step 12 (sample 10 100) boot with
     | (Return j, _) => member j "state" = Return (str "DONE")
     | (Throw e, w') =>
         e = PollingTimeout
         \/ (exists v, e = FlowFailed v /\ is_failure v)
         \/ (exists w0, getFlowRunDetails three_step (sample 10 100) w0
                        = (Throw e, w'))
     | (Pending, _) => False
     end.
Proof.
  assert (poll_bound (sample 10 100) <= 12)%nat as Hb
    by (vm_compute; apply le_n).
  split; [exact three_step_causal|].
  split; [exact three_step_statuses|].
  split; [exact Hb|].
  exact (proj2 (poller_returns_only_done three_step (sample 10 100) boot)
           three_step_causal three_step_statuses 12%nat Hb).
Defined.

(** C2.  How a fetched state ends or continues the loop: DONE returns the
    fetched status; FAILED or TERMINATED throws the failure carrying that
    state; any other value of [state], [undefined] included, is not
    terminal: the clock is read, and within the deadline the poller waits
    the interval and makes the next pass. *)
Theorem poller_classifies_state host o st n w j w1 v :
  getFlowRunDetails host o w = (Return j, w1) ->
  member j "state" = Return v ->
  (is_done v -> poll_loop host (S n) o st w = (Return j, w1))
  /\ (is_failure v ->
      poll_loop host (S n) o st w = (Throw (FlowFailed v), w1))
  /\ (non_terminal v ->
      let w2 := emit (EvNow (now w1)) w1 in
      (now w1 - st <= deadline o ->
       poll_loop host (S n) o st w =
       poll_loop host n o st (after_sleep host (interval o) w2))
      /\ (now w1 - st > deadline o ->
          poll_loop host (S n) o st w = (Throw PollingTimeout, w2)))
  /\ (is_done v \/ is_failure v \/ non_terminal v).
Proof.
  intros F M. split; [|split; [|split]].
  - intros Hv. unfold is_done in Hv; subst v. now apply poll_loop_done.
  - intros Hv. now apply poll_loop_failure with j.
  - intros Hv w2.
    rewrite (poll_loop_non_terminal host n o st w j w1 v F M Hv). fold w2.
    destruct (now w1 - st >? deadline o) eqn:E.
    + apply Z.gtb_lt in E. split; [lia|reflexivity].
    + rewrite Z.gtb_ltb in E. apply Z.ltb_ge in E. split; [reflexivity|lia].
  - apply state_classes.
Qed.

Lemma poller_classifies_state_witness :
  let h := always "RUNNING" in
  let o := sample 10 50 in
  let j := status_payload "RUNNING" in
  let w1 := after_fetch h (get_run_request o) boot in
  getFlowRunDetails h o boot = (Return j, w1)
  /\ member j "state" = Return (str "RUNNING")
  /\ non_terminal (str "RUNNING")
  /\ now w1 - 1000 <= deadline o
  /\ poll_loop h 2 o 1000 boot =
     poll_loop h 1 o 1000
       (after_sleep h (interval o) (emit (EvNow (now w1)) w1)).
Proof.
  intros h o j w1.
  assert (getFlowRunDetails h o boot = (Return j, w1)) as F by reflexivity.
  assert (member j "state" = Return (str "RUNNING")) as M by reflexivity.
  assert (non_terminal (str "RUNNING")) as N
    by (unfold non_terminal, str; repeat split; discriminate).
  assert (now w1 - 1000 <= deadline o) as D by (cbn; lia).
  repeat (split; [assumption|]).
  exact (proj1 (proj1 (proj2 (proj2
           (poller_classifies_state h o 1000 1%nat boot j w1
              (str "RUNNING") F M))) N) D).
Defined.

(** C3.  In every run of the poller, each fetch after the first comes right
    after a clock read that found the deadline not exceeded and the wait of
    one interval that follows it; and a clock read that finds the deadline
    exceeded is the last thing the poller does: it throws the timeout and
    makes no further fetch. *)
Theorem deadline_checked_between_fetches host fuel o w r w' :
  pollFlowRunUntilComplete host fuel o w = (r, w') ->
  exists tr,
    log w' = log w ++ EvNow (now w) :: tr
    /\ (forall pre rq post,
          tr = pre ++ EvFetch rq :: post -> pre <> [] ->
          exists pre' t,
            pre = pre' ++ [EvNow t; EvSetTimeout (interval o)]
            /\ t - now w <= deadline o)
    /\ (forall pre t post,
          tr = pre ++ EvNow t :: post -> t - now w > deadline o ->
          post = [] /\ r = Throw PollingTimeout).
Proof.
  intros E. rewrite pollFlowRunUntilComplete_eq in E.
  apply poll_loop_trace in E as (tr & El & Htr).
  exists tr. cbn [log emit] in El. rewrite <- app_assoc in El.
  split; [exact El|]. split.
  - now apply poll_trace_fetch_preceded with r.
  - now apply poll_trace_exceeded_last.
Qed.

Lemma deadline_checked_between_fetches_witness :
  let run := pollFlowRunUntilComplete (always "RUNNING") 10 (sample 10 50) boot in
  run = (Throw PollingTimeout, snd run)
  /\ exists tr,
      log (snd run) = log boot ++ EvNow (now boot) :: tr
      /\ (forall pre rq post,
            tr = pre ++ EvFetch rq :: post -> pre <> [] ->
            exists pre' t,
              pre = pre' ++ [EvNow t; EvSetTimeout (interval (sample 10 50))]
              /\ t - now boot <= deadline (sample 10 50))
      /\ (forall pre t post,
            tr = pre ++ EvNow t :: post ->
            t - now boot > deadline (sample 10 50) ->
            post = [] /\ @Throw JSON PollingTimeout = Throw PollingTimeout).
Proof.
  intros run.
  assert (run = (Throw PollingTimeout, snd run)) as E
    by (vm_compute; reflexivity).
  split; [exact E|].
  exact (deadline_checked_between_fetches (always "RUNNING") 10
           (sample 10 50) boot (Throw PollingTimeout) (snd run) E).
Defined.

(** C10.  Within a pass the fetched state is looked at before the clock.
    The first thing the poller does after noting its start time is a fetch,
    with no deadline comparison before it; and whatever the clock reads when
    a fetch returns, the deadline long past included, a status in state
    DONE is returned and a status in state FAILED or TERMINATED throws the
    failure of the run, never the timeout.  In particular with
    [timeoutMs = 0] a first fetch in state DONE is a success. *)
Theorem terminal_state_before_deadline host o :
  (forall n w r w',
      pollFlowRunUntilComplete host (S n) o w = (r, w') ->
      exists tr,
        log w' = log w ++ EvNow (now w) :: EvFetch (get_run_request o) :: tr)
  /\ (forall n st w j w1 v,
        getFlowRunDetails host o w = (Return j, w1) ->
        member j "state" = Return v ->
        (is_done v -> poll_loop host (S n) o st w = (Return j, w1))
        /\ (is_failure v ->
            poll_loop host (S n) o st w = (Throw (FlowFailed v), w1)))
  /\ (forall n w j w1,
        timeoutMs o = Some 0 ->
        getFlowRunDetails host o (emit (EvNow (now w)) w) = (Return j, w1) ->
        member j "state" = Return (str "DONE") ->
        pollFlowRunUntilComplete host (S n) o w = (Return j, w1)).
Proof.
  repeat split.
  - intros n w r w' E. rewrite pollFlowRunUntilComplete_eq in E.
    set (w0 := emit (EvNow (now w)) w) in *.
    assert (exists tr, log w' = log w0 ++ EvFetch (get_run_request o) :: tr)
      as [tr Htr].
    { destruct (poll_loop_inv host n o (now w) w0)
        as [(r' & Hr & E') | [(Hw & Hd & E') | (Hw & Hd & E')]];
        rewrite E' in E.
      - injection E as <- <-. now exists [].
      - injection E as <- <-. eexists. cbn [log emit after_fetch].
        now rewrite <- app_assoc.
      - apply poll_loop_trace in E as (tr & El & _). eexists. rewrite El.
        cbn [log emit after_fetch after_sleep]. now rewrite <- !app_assoc. }
    exists tr. rewrite Htr. unfold w0. cbn [log emit].
    now rewrite <- app_assoc.
  - intros Hv. unfold is_done in Hv; subst v. now apply poll_loop_done.
  - intros Hv. now apply poll_loop_failure with j.
  - intros n w j w1 _ F M. rewrite pollFlowRunUntilComplete_eq.
    now apply poll_loop_done.
Qed.

Lemma terminal_state_before_deadline_witness :
  let h := slow "DONE" in
  let o := sample 10 0 in
  let w0 := emit (EvNow (now boot)) boot in
  let w1 := after_fetch h (get_run_request o) w0 in
  timeoutMs o = Some 0
  /\ getFlowRunDetails h o w0 = (Return (status_payload "DONE"), w1)
  /\ member (status_payload "DONE") "state" = Return (str "DONE")
  /\ now w1 - now boot > deadline o
  /\ pollFlowRunUntilComplete h 1 o boot = (Return (status_payload "DONE"), w1).
Proof.
  intros h o w0 w1.
  split; [reflexivity|]. split; [reflexivity|]. split; [reflexivity|].
  split; [cbn; lia|].
  exact (proj2 (proj2 (terminal_state_before_deadline h o))
           0%nat boot (status_payload "DONE") w1 eq_refl eq_refl eq_refl).
Defined.

(* ===================================================================== *)
(** ** The launcher and the facade                                        *)
(* ===================================================================== *)

(** The facade, by what the launch and the poller give. *)
Lemma startAndWaitForFlow_eq host fuel o w :
  startAndWaitForFlow host fuel o w =
  match startGumloopFlow host o w with
  | (Throw e, w1) => (Throw e, emit (EvConsoleError e) w1)
  | (Pending, w1) => (Pending, w1)
  | (Return flowStart, w1) =>
      match member flowStart "run_id" with
      | Throw e => (Throw e, emit (EvConsoleError e) w1)
      | Pending => (Pending, w1)
      | Return run_id =>
          match pollFlowRunUntilComplete host fuel (poll_options o run_id)
                  (emit (EvConsoleLog run_id) w1) with
          | (Return final, w2) =>
              (Return {| startDetails := flowStart; finalResult := final |}, w2)
          | (Throw e, w2) => (Throw e, emit (EvConsoleError e) w2)
          | (Pending, w2) => (Pending, w2)
          end
      end
  end.
Proof.
  unfold startAndWaitForFlow, try_catch. unfold bind at 1.
  fold (launch_options o).
  assert (startGumloopFlow host (launch_options o) w
          = startGumloopFlow host o w) as ->.
  { rewrite !startGumloopFlow_eq. do 2 f_equal.
    unfold start_pipeline_request, launch_options;
      cbn [authToken userId savedItemId projectId pipelineInputs].
    now rewrite !default_idem. }
  destruct (startGumloopFlow host o w) as [[flowStart|e|] w1];
    [|reflexivity..].
  unfold bind at 1, lift.
  destruct (member flowStart "run_id") as [run_id|e|]; [|reflexivity..].
  unfold bind at 1, console_log. unfold bind at 1.
  fold (interval o) (deadline o). fold (poll_options o run_id).
  destruct (pollFlowRunUntilComplete _ _ _ _) as [[final|e|] w2]; reflexivity.
Qed.

(** C6.  The launcher makes one call, whatever comes of it, and throws
    exactly when that call is rejected, answers with a status outside
    200-299, or carries a body that is not JSON.  The facade then logs the
    error and rethrows it: the launch request is the only call it made. *)
Theorem launch_failure_aborts host fuel o w :
  snd (startGumloopFlow host o w)
  = after_fetch host (start_pipeline_request o) w
  /\ (forall e,
        fst (startGumloopFlow host o w) = Throw e
        <-> fetch_fails host (calls w) e)
  /\ (transport_fails host (calls w) \/ http_failure host (calls w)
      \/ body_not_json host (calls w) ->
      exists e, fst (startGumloopFlow host o w) = Throw e)
  /\ (forall e w1,
        startGumloopFlow host o w = (Throw e, w1) ->
        let w' := emit (EvConsoleError e) w1 in
        startAndWaitForFlow host fuel o w = (Throw e, w')
        /\ calls w' = S (calls w)
        /\ log w' = log w ++ [EvFetch (start_pipeline_request o);
                              EvConsoleError e]).
Proof.
  assert (forall e, fst (startGumloopFlow host o w) = Throw e
                    <-> fetch_fails host (calls w) e) as Hiff.
  { intros e. rewrite startGumloopFlow_eq; cbn [fst].
    unfold fetch_fails, transport_fails, body_not_json. split.
    - destruct (outcome _) as [|s b].
      + intros H. injection H as <-. now left.
      + destruct (ok _) eqn:E.
        * destruct b as [j|]; [discriminate|]. intros H. injection H as <-.
          right; right. split; [|reflexivity]. exists s. now split.
        * intros H. injection H as <-. right; left. exists s, b.
          now repeat split.
    - intros [[H ->] | [(s & b & H & Hok & ->) | [(s & H & Hok) ->]]];
        rewrite H; [reflexivity| |]; now rewrite Hok. }
  split; [now rewrite startGumloopFlow_eq|]. split; [exact Hiff|]. split.
  - unfold fetch_fails in Hiff.
    intros [H | [(s & b & H & Hok) | H]].
    + exists FetchError. apply Hiff. now left.
    + exists (HttpError s). apply Hiff. right; left. now exists s, b.
    + exists InvalidJson. apply Hiff. now right; right.
  - intros e w1 E w'. rewrite startAndWaitForFlow_eq, E.
    split; [reflexivity|].
    rewrite startGumloopFlow_eq in E. injection E as _ <-.
    unfold w'. cbn [calls log emit after_fetch].
    split; [reflexivity|now rewrite <- app_assoc].
Qed.

Lemma launch_failure_aborts_witness :
  let o := sample 10 50 in
  let w1 := after_fetch unreachable (start_pipeline_request o) boot in
  transport_fails unreachable (calls boot)
  /\ startGumloopFlow unreachable o boot = (Throw FetchError, w1)
  /\ startAndWaitForFlow unreachable 5 o boot
     = (Throw FetchError, emit (EvConsoleError FetchError) w1)
  /\ calls (emit (EvConsoleError FetchError) w1) = S (calls boot)
  /\ log (emit (EvConsoleError FetchError) w1)
     = log boot ++ [EvFetch (start_pipeline_request o);
                    EvConsoleError FetchError].
Proof.
  intros o w1.
  split; [reflexivity|]. split; [reflexivity|].
  exact (proj2 (proj2 (proj2 (launch_failure_aborts unreachable 5 o boot)))
           FetchError w1 eq_refl).
Defined.

(** What the poller adds to the log: no launch, and fetches of one request. *)
Lemma poller_log host fuel o w r w' :
  pollFlowRunUntilComplete host fuel o w = (r, w') ->
  exists tr,
    log w' = log w ++ tr
    /\ (forall e, In e tr -> is_launch e = false)
    /\ (forall rq, In (EvFetch rq) tr -> rq = get_run_request o).
Proof.
  intros E. rewrite pollFlowRunUntilComplete_eq in E.
  apply poll_loop_trace in E as (tr & El & Htr).
  exists (EvNow (now w) :: tr). cbn [log emit] in El.
  rewrite <- app_assoc in El. split; [exact El|].
  assert (forall rq, In (EvFetch rq) tr -> rq = get_run_request o) as Hf
    by (now apply poll_trace_fetches with (now w) r).
  split.
  - intros e [<- | Hin]; [reflexivity|].
    destruct e as [rq| | | |]; try reflexivity.
    now rewrite (Hf rq Hin).
  - intros rq [Hin | Hin]; [discriminate|now apply Hf].
Qed.

(** C7.  One call of the facade makes one launch, its first call, and every
    other call it makes is a status fetch for the run id read from the
    response of that launch ([flowStart.run_id]). *)
Theorem one_launch_one_run_id host fuel o w r w' :
  startAndWaitForFlow host fuel o w = (r, w') ->
  exists tr,
    log w' = log w ++ EvFetch (start_pipeline_request o) :: tr
    /\ is_launch (EvFetch (start_pipeline_request o)) = true
    /\ (forall e, In e tr -> is_launch e = false)
    /\ (forall rq,
          In (EvFetch rq) tr ->
          exists flowStart w1 run_id,
            startGumloopFlow host o w = (Return flowStart, w1)
            /\ member flowStart "run_id" = Return run_id
            /\ rq = get_run_request (poll_options o run_id)
            /\ hd_error (query rq) = Some ("run_id"%string, run_id)).
Proof.
  intros E. rewrite startAndWaitForFlow_eq in E.
  destruct (startGumloopFlow host o w) as [[flowStart|e|] w1] eqn:L;
    pose proof L as L'; rewrite startGumloopFlow_eq in L';
    injection L' as _ <-.
  - destruct (member flowStart "run_id") as [run_id|e|] eqn:M.
    + destruct (pollFlowRunUntilComplete host fuel (poll_options o run_id) _)
        as [r2 w2] eqn:P.
      apply poller_log in P as (tr & El & Hl & Hf).
      cbn [log emit after_fetch] in El.
      assert (forall rq, In (EvFetch rq) (EvConsoleLog run_id :: tr) ->
              exists flowStart' w1' run_id',
                (Return flowStart,
                 after_fetch host (start_pipeline_request o) w)
                = (Return flowStart', w1')
                /\ member flowStart' "run_id" = Return run_id'
                /\ rq = get_run_request (poll_options o run_id')
                /\ hd_error (query rq) = Some ("run_id"%string, run_id'))
        as Hrq.
      { intros rq [Hin | Hin]; [discriminate|].
        exists flowStart, (after_fetch host (start_pipeline_request o) w),
          run_id.
        rewrite (Hf rq Hin). now repeat split. }
      destruct r2 as [final|e|]; injection E as <- <-.
      * exists (EvConsoleLog run_id :: tr). rewrite El, <- !app_assoc.
        repeat split; [|exact Hrq].
        intros e [<- | Hin]; [reflexivity|now apply Hl].
      * exists (EvConsoleLog run_id :: tr ++ [EvConsoleError e]).
        cbn [log emit]. rewrite El, <- !app_assoc.
        repeat split.
        -- intros e' [<- | Hin]; [reflexivity|].
           apply in_app_or in Hin as [Hin | [<- | []]];
             [now apply Hl|reflexivity].
        -- intros rq [Hin | Hin]; [discriminate|].
           apply in_app_or in Hin as [Hin | [Hin | []]]; [|discriminate].
           apply Hrq. now right.
      * exists (EvConsoleLog run_id :: tr). rewrite El, <- !app_assoc.
        repeat split; [|exact Hrq].
        intros e [<- | Hin]; [reflexivity|now apply Hl].
    + injection E as <- <-. exists [EvConsoleError e].
      cbn [log emit after_fetch]. rewrite <- app_assoc.
      repeat split.
      * intros e' [<- | []]. reflexivity.
      * intros rq [Hin | []]. discriminate.
    + injection E as <- <-. exists []. repeat split; intros ? [].
  - injection E as <- <-. exists [EvConsoleError e].
    cbn [log emit after_fetch]. rewrite <- app_assoc.
    repeat split.
    + intros e' [<- | []]. reflexivity.
    + intros rq [Hin | []]. discriminate.
  - injection E as <- <-. exists []. repeat split; intros ? [].
Qed.

Lemma one_launch_one_run_id_witness :
  let run := startAndWaitForFlow launches_then_done 5 (sample 10 50) boot in
  fst run = Return {| startDetails := JObj [("run_id"%string, JStr "run-9")];
                      finalResult := status_payload "DONE" |}
  /\ exists tr,
      log (snd run)
      = log boot ++ EvFetch (start_pipeline_request (sample 10 50)) :: tr
      /\ is_launch (EvFetch (start_pipeline_request (sample 10 50))) = true
      /\ (forall e, In e tr -> is_launch e = false)
      /\ (forall rq,
            In (EvFetch rq) tr ->
            exists flowStart w1 run_id,
              startGumloopFlow launches_then_done (sample 10 50) boot
              = (Return flowStart, w1)
              /\ member flowStart "run_id" = Return run_id
              /\ rq = get_run_request (poll_options (sample 10 50) run_id)
              /\ hd_error (query rq) = Some ("run_id"%string, run_id)).
Proof.
  intros run.
  split; [reflexivity|].
  exact (one_launch_one_run_id launches_then_done 5 (sample 10 50) boot
           (fst run) (snd run) eq_refl).
Defined.

(* ===================================================================== *)
(** ** Failures of the fetcher                                            *)
(* ===================================================================== *)

(** C5, as stated, fails: the fetcher also throws on a 200 response whose
    body is not JSON, where neither the transport failed nor the status is
    a failure. *)
Lemma fetcher_throws_on_unreadable_body :
  (exists e, fst (getFlowRunDetails garbled (sample 10 50) boot) = Throw e)
  /\ ~ (transport_fails garbled (calls boot)
        \/ http_failure garbled (calls boot)).
Proof.
  split; [now exists InvalidJson|].
  unfold transport_fails, http_failure.
  intros [H | (s & b & H & Hok)]; [discriminate|].
  cbn in H. injection H as <- <-. discriminate.
Qed.

(** C5, amended.  The fetcher throws exactly when the call is rejected, the
    status is outside 200-299, or the body is not JSON.  A fetch that
    throws ends the loop of the poller at once with that error, in the
    world the fetch left: one call was made and none follows.  In
    particular, when the first fetch finds a state that is not terminal
    within the deadline and the second is rejected, the poller throws the
    error of the second fetch after two calls. *)
Theorem fetch_failure_ends_polling host o :
  (forall w,
      (exists e, fst (getFlowRunDetails host o w) = Throw e)
      <-> transport_fails host (calls w) \/ http_failure host (calls w)
          \/ body_not_json host (calls w))
  /\ (forall n st w e w1,
        getFlowRunDetails host o w = (Throw e, w1) ->
        poll_loop host (S n) o st w = (Throw e, w1)
        /\ calls w1 = S (calls w))
  /\ (forall n w,
        waits host (calls w) ->
        latency (net host (calls w)) <= deadline o ->
        transport_fails host (S (calls w)) ->
        exists w',
          pollFlowRunUntilComplete host (S (S n)) o w = (Throw FetchError, w')
          /\ calls w' = S (S (calls w))).
Proof.
  split; [|split].
  - intros w. split.
    + intros [e He].
      destruct (getFlowRunDetails host o w) as [r w1] eqn:F.
      cbn [fst] in He. subst r.
      apply getFlowRunDetails_throws in F as [F _].
      destruct F as [[H _] | [(s & b & H & Hok & _) | [H _]]];
        [now left|right; left; now exists s, b|now right; right].
    + assert (forall e, fetch_fails host (calls w) e ->
                        exists e', fst (getFlowRunDetails host o w) = Throw e')
        as Hthrows.
      { intros e He. exists e.
        now rewrite (proj2 (getFlowRunDetails_throws host o w e _)
                       (conj He eq_refl)). }
      intros [H | [(s & b & H & Hok) | H]].
      * apply (Hthrows FetchError). now left.
      * apply (Hthrows (HttpError s)). right; left. now exists s, b.
      * apply (Hthrows InvalidJson). now right; right.
  - intros n st w e w1 F. split; [now apply poll_loop_fetch_throws|].
    apply getFlowRunDetails_world in F. now subst w1.
  - intros n w Hw Hl Hr. rewrite pollFlowRunUntilComplete_eq.
    set (w0 := emit (EvNow (now w)) w).
    destruct (poll_loop_inv host (S n) o (now w) w0)
      as [(r' & Hs & _) | [(_ & Hd & _) | (_ & _ & E)]].
    + exfalso. eapply settles_waits_excl; eassumption.
    + unfold w0 in Hd. cbn [now emit after_fetch calls] in Hd. lia.
    + rewrite E. eexists. split.
      * apply poll_loop_fetch_throws. apply getFlowRunDetails_throws.
        split; [|reflexivity]. left. now split.
      * reflexivity.
Qed.

Lemma fetch_failure_ends_polling_witness :
  let o := sample 10 50 in
  waits drops_second (calls boot)
  /\ latency (net drops_second (calls boot)) <= deadline o
  /\ transport_fails drops_second (S (calls boot))
  /\ exists w',
      pollFlowRunUntilComplete drops_second 5 o boot = (Throw FetchError, w')
      /\ calls w' = S (S (calls boot)).
Proof.
  intros o.
  assert (waits drops_second (calls boot)) as Hw.
  { exists (status_payload "RUNNING"), (str "RUNNING").
    split; [now exists 200|]. split; [reflexivity|].
    unfold non_terminal, str. repeat split; discriminate. }
  assert (latency (net drops_second (calls boot)) <= deadline o) as Hl
    by (cbn; lia).
  assert (transport_fails drops_second (S (calls boot))) as Hr
    by reflexivity.
  repeat (split; [assumption|]).
  exact (proj2 (proj2 (fetch_failure_ends_polling drops_second o))
           3%nat boot Hw Hl Hr).
Defined.

(* ===================================================================== *)
(** ** Time                                                               *)
(* ===================================================================== *)

Section Elapsed.

Variable host : Host.
Variable o : Options.
Variable st : Z.

Hypothesis host_causal : causal host.

Local Abbreviation req := (get_run_request o).
Local Abbreviation delay := (timer_delay (interval o)).

(** One pass: it is the last one, or it ends in a wait that began within
    the deadline. *)
Lemma poll_loop_pass_time n w r w' :
  poll_loop host (S n) o st w = (r, w') ->
  (r <> Pending /\ w' = after_fetch host req w
   \/ r = Throw PollingTimeout /\ waits host (calls w)
      /\ now (after_fetch host req w) - st > deadline o
      /\ calls w' = S (calls w) /\ now w' = now (after_fetch host req w))
  \/ (exists w3,
        poll_loop host n o st w3 = (r, w')
        /\ waits host (calls w)
        /\ calls w3 = S (calls w)
        /\ now (after_fetch host req w) - st <= deadline o
        /\ now (after_fetch host req w) + delay <= now w3
        /\ now w3 = now (after_fetch host req w) + delay
                    + lateness host (timers w)).
Proof.
  intros E.
  destruct (poll_loop_inv host n o st w)
    as [(r' & Hr & E') | [(Hw & Hd & E') | (Hw & Hd & E')]];
    rewrite E' in E.
  - injection E as <- <-. left; left.
    split; [eapply settles_not_pending; eassumption|reflexivity].
  - injection E as <- <-. left; right. now repeat split.
  - right. eexists. split; [exact E|].
    destruct host_causal as [_ Hlate]. specialize (Hlate (timers w)).
    cbn [calls now timers emit after_fetch after_sleep].
    repeat split; try assumption; lia.
Qed.

(** Started past the deadline, the loop makes one call. *)
Lemma poll_loop_late n w r w' :
  now w - st > deadline o ->
  poll_loop host n o st w = (r, w') ->
  (calls w' <= S (calls w))%nat /\ ((1 <= n)%nat -> r <> Pending).
Proof.
  intros Hd E. destruct n as [|n].
  - cbn in E. injection E as <- <-. split; lia.
  - apply poll_loop_last_pass in E as [Hr ->]; [|assumption..].
    split; [lia|auto].
Qed.

Section Bounded.

Variables L D : Z.
Hypothesis latency_bound : forall k, latency (net host k) <= L.
Hypothesis lateness_bound : forall k, lateness host k <= D.

(** The clock when the loop ends: at most one wait and one fetch past the
    deadline. *)
Lemma poll_loop_elapsed n w r w' :
  poll_loop host n o st w = (r, w') ->
  now w' - st <= Z.max (now w - st + L) (deadline o + delay + D + L).
Proof.
  assert (0 <= L) as HL.
  { destruct host_causal as [H _]. specialize (H O).
    specialize (latency_bound O). lia. }
  revert n w r w'. apply poll_loop_passes.
  - intros w. lia.
  - intros n w r _. cbn [now after_fetch].
    specialize (latency_bound (calls w)). lia.
  - intros n w _ _. cbn [now after_fetch emit].
    specialize (latency_bound (calls w)). lia.
  - intros n w r w' _ Hd w3 _ IH. unfold w3 in IH.
    cbn [now emit after_fetch after_sleep timers] in *.
    specialize (lateness_bound (timers w)). lia.
Qed.

End Bounded.

End Elapsed.

(** C4, as stated, fails: against a service that stays RUNNING, with
    [timeoutMs = 50] and [pollingIntervalMs = 10], the poller throws the
    timeout when 60 ms have passed. *)
Lemma poller_outlasts_timeout :
  let o := sample 10 50 in
  let run := pollFlowRunUntilComplete (always "RUNNING") (poll_bound o) o boot in
  fst run = Throw PollingTimeout
  /\ now (snd run) - now boot = 60
  /\ ~ (now (snd run) - now boot <= deadline o).
Proof.
  intros o run.
  assert (now (snd run) - now boot = 60) as H by (vm_compute; reflexivity).
  split; [vm_compute; reflexivity|]. split; [exact H|].
  rewrite H. cbn. lia.
Qed.

(** C4, amended.  On a host where calls take between 0 and [L] ms and
    timers fire between 0 and [D] ms late, the poller settles, in a return
    or a throw, within [poll_bound] unrollings whatever the service
    answers; it makes at most one fetch per wait that fits in the deadline
    and two more; and when it settles the clock has advanced by at most
    the deadline, one wait, its lateness and one call.  The wait is the
    interval when that is between 1 and 2^31-1. *)
Theorem poller_terminates host o w L D :
  causal host ->
  (forall k, latency (net host k) <= L) ->
  (forall k, lateness host k <= D) ->
  forall fuel, (poll_bound o <= fuel)%nat ->
    let run := pollFlowRunUntilComplete host fuel o w in
    fst run <> Pending
    /\ run = pollFlowRunUntilComplete host (poll_bound o) o w
    /\ Z.of_nat (calls (snd run) - calls w)
       <= Z.max 0 (deadline o / timer_delay (interval o) + 1) + 1
    /\ now (snd run) - now w
       <= Z.max 0 (deadline o) + timer_delay (interval o) + D + L
    /\ (1 <= interval o <= 2147483647 ->
        timer_delay (interval o) = interval o).
Proof.
  intros Hc HL HD fuel Hf run.
  destruct (poller_settles host o w fuel Hc Hf) as [Hp He].
  split; [exact Hp|]. split; [exact He|].
  unfold run. rewrite He. clear run Hp He.
  destruct (pollFlowRunUntilComplete host (poll_bound o) o w) as [r w'] eqn:E.
  rewrite pollFlowRunUntilComplete_eq in E. cbn [snd].
  pose proof (poll_loop_calls _ _ _ _ _ _ _ E) as [Hcalls _].
  pose proof (poll_loop_elapsed _ _ _ Hc L D HL HD _ _ _ _ E) as Hel.
  cbn [calls now emit] in Hcalls, Hel.
  pose proof (timer_delay_pos (interval o)).
  assert (0 <= L) by (destruct Hc as [Hc _]; specialize (Hc O);
                      specialize (HL O); lia).
  assert (0 <= D) by (destruct Hc as [_ Hc]; specialize (Hc O);
                      specialize (HD O); lia).
  unfold poll_bound in Hcalls.
  repeat split; [lia|lia|apply timer_delay_in_range].
Qed.

Lemma poller_terminates_witness :
  let o := sample 10 50 in
  let h := always "RUNNING" in
  let run := pollFlowRunUntilComplete h 20 o boot in
  causal h
  /\ (forall k, latency (net h k) <= 0)
  /\ (forall k, lateness h k <= 0)
  /\ (poll_bound o <= 20)%nat
  /\ fst run <> Pending
  /\ run = pollFlowRunUntilComplete h (poll_bound o) o boot
  /\ Z.of_nat (calls (snd run) - calls boot)
     <= Z.max 0 (deadline o / timer_delay (interval o) + 1) + 1
  /\ now (snd run) - now boot
     <= Z.max 0 (deadline o) + timer_delay (interval o) + 0 + 0
  /\ (1 <= interval o <= 2147483647 -> timer_delay (interval o) = interval o).
Proof.
  intros o h run.
  assert (forall k, latency (net h k) <= 0) as HL
    by (intros k; cbn; destruct k; cbn; lia).
  assert (forall k, lateness h k <= 0) as HD by (intros k; cbn; lia).
  assert (poll_bound o <= 20)%nat as Hb by (vm_compute; lia).
  split; [exact (always_causal "RUNNING")|].
  split; [exact HL|]. split; [exact HD|]. split; [exact Hb|].
  exact (poller_terminates h o boot 0 0 (always_causal "RUNNING") HL HD
           20%nat Hb).
Defined.

(** With a wait that is not shorter than the deadline, the second pass at
    the latest starts with the deadline reached, and the third past it. *)
Lemma poller_calls_with_long_wait host fuel o w r w' :
  causal host ->
  deadline o <= timer_delay (interval o) ->
  pollFlowRunUntilComplete host fuel o w = (r, w') ->
  (calls w' <= calls w + 3)%nat
  /\ (deadline o < timer_delay (interval o) -> (calls w' <= calls w + 2)%nat)
  /\ ((3 <= fuel)%nat -> r <> Pending).
Proof.
  intros Hc Hlong E. rewrite pollFlowRunUntilComplete_eq in E.
  pose proof (timer_delay_pos (interval o)) as Hpos.
  set (w0 := emit (EvNow (now w)) w) in *.
  assert (calls w0 = calls w /\ now w0 = now w) as [Hc0 Hn0] by now split.
  pose proof (after_fetch_now host o Hc w0) as Hf0.
  destruct fuel as [|n1].
  { cbn in E. injection E as <- <-. repeat split; lia. }
  apply (poll_loop_pass_time host o (now w) Hc) in E
    as [[[Hr ->] | (-> & _ & _ & Hcalls & _)]
       | (w3 & E & _ & Hc3 & Hd1 & Hn3 & _)].
  { cbn [calls after_fetch]. repeat split; (lia || auto). }
  { repeat split; (lia || discriminate). }
  pose proof (after_fetch_now host o Hc w3) as Hf3.
  destruct n1 as [|n2].
  { cbn in E. injection E as <- <-. repeat split; lia. }
  apply (poll_loop_pass_time host o (now w) Hc) in E
    as [[[Hr ->] | (-> & _ & _ & Hcalls & _)]
       | (w5 & E & _ & Hc5 & Hd3 & Hn5 & _)].
  { cbn [calls after_fetch]. repeat split; (lia || auto). }
  { repeat split; (lia || discriminate). }
  apply (poll_loop_late host o (now w) Hc) in E as [Hcalls Hr]; [|lia].
  repeat split; (lia || (intros; apply Hr; lia)).
Qed.

(** C8, as stated, fails: with [pollingIntervalMs = 100] and
    [timeoutMs = 50], against a service that stays RUNNING and answers in
    5 ms, the poller makes two fetches before it times out. *)
Lemma long_interval_fetches_twice :
  let o := sample 100 50 in
  let run := pollFlowRunUntilComplete (steady 5 "RUNNING") 5 o boot in
  interval o >= deadline o
  /\ never_terminal (steady 5 "RUNNING")
  /\ fst run = Throw PollingTimeout
  /\ calls (snd run) = (calls boot + 2)%nat
  /\ ~ (calls (snd run) <= calls boot + 1)%nat.
Proof.
  intros o run.
  split; [cbn; lia|].
  split; [apply steady_never_terminal; discriminate|].
  split; [vm_compute; reflexivity|].
  assert (calls (snd run) = (calls boot + 2)%nat) as H
    by (vm_compute; reflexivity).
  split; [exact H|]. rewrite H. lia.
Qed.

(** C8, amended.  When the interval, between 1 and 2^31-1, is not shorter
    than the deadline, the poller makes at most three fetches, and at most
    two when the interval is longer than the deadline; three unrollings
    let it settle. *)
Theorem long_interval_bounds_fetches host fuel o w r w' :
  causal host ->
  1 <= interval o <= 2147483647 ->
  deadline o <= interval o ->
  pollFlowRunUntilComplete host fuel o w = (r, w') ->
  (calls w' <= calls w + 3)%nat
  /\ (deadline o < interval o -> (calls w' <= calls w + 2)%nat)
  /\ ((3 <= fuel)%nat -> r <> Pending).
Proof.
  intros Hc Hr Hlong E.
  pose proof (timer_delay_in_range _ Hr) as Hd.
  rewrite <- Hd. rewrite <- Hd in Hlong.
  now apply poller_calls_with_long_wait with host.
Qed.

Lemma long_interval_bounds_fetches_witness :
  let o := sample 100 50 in
  let h := always "RUNNING" in
  let run := pollFlowRunUntilComplete h 5 o boot in
  causal h
  /\ 1 <= interval o <= 2147483647
  /\ deadline o <= interval o
  /\ (calls (snd run) <= calls boot + 3)%nat
  /\ (deadline o < interval o -> (calls (snd run) <= calls boot + 2)%nat)
  /\ ((3 <= 5)%nat -> fst run <> Pending).
Proof.
  intros o h run.
  assert (1 <= interval o <= 2147483647) as Hr by (cbn; lia).
  assert (deadline o <= interval o) as Hl by (cbn; lia).
  split; [exact (always_causal "RUNNING")|].
  split; [exact Hr|]. split; [exact Hl|].
  exact (long_interval_bounds_fetches h 5 o boot (fst run) (snd run)
           (always_causal "RUNNING") Hr Hl eq_refl).
Defined.

(** C9, as stated, fails: with [timeoutMs = 0], against a service that
    stays RUNNING and answers within the millisecond, the poller makes two
    fetches before it times out, neither none nor exactly one. *)
Lemma zero_timeout_fetches_twice :
  let o := sample 10 0 in
  let run := pollFlowRunUntilComplete (always "RUNNING") 5 o boot in
  timeoutMs o = Some 0
  /\ never_terminal (always "RUNNING")
  /\ fst run = Throw PollingTimeout
  /\ ~ (calls (snd run) = calls boot
        \/ calls (snd run) = (calls boot + 1)%nat).
Proof.
  intros o run.
  split; [reflexivity|].
  split; [apply always_never_terminal; discriminate|].
  split; [vm_compute; reflexivity|].
  assert (calls (snd run) = 2%nat) as H by (vm_compute; reflexivity).
  rewrite H. cbn. lia.
Qed.

(** C9, amended.  With [timeoutMs = 0], against a service whose replies are
    never terminal, the poller fetches first and throws the timeout: after
    that one fetch when the fetch took at least a millisecond, and after a
    wait and a second fetch when the clock had not moved. *)
Theorem zero_timeout_fetches host fuel o w :
  causal host ->
  never_terminal host ->
  timeoutMs o = Some 0 ->
  (2 <= fuel)%nat ->
  let run := pollFlowRunUntilComplete host fuel o w in
  fst run = Throw PollingTimeout
  /\ (0 < latency (net host (calls w)) -> calls (snd run) = S (calls w))
  /\ (latency (net host (calls w)) = 0 -> calls (snd run) = S (S (calls w))).
Proof.
  intros Hc Hnt Hz Hf run.
  assert (deadline o = 0) as Hd by (unfold deadline; now rewrite Hz).
  pose proof (timer_delay_pos (interval o)) as Hpos.
  destruct fuel as [|[|n]]; [lia..|]. clear Hf.
  unfold run. clear run.
  destruct (pollFlowRunUntilComplete host (S (S n)) o w) as [r w'] eqn:E.
  rewrite pollFlowRunUntilComplete_eq in E. cbn [fst snd].
  set (w0 := emit (EvNow (now w)) w) in *.
  assert (calls w0 = calls w /\ now w0 = now w) as [Hc0 Hn0] by now split.
  pose proof (proj1 Hc (calls w)) as Hlat.
  destruct (poll_loop_inv host (S n) o (now w) w0)
    as [(r' & Hs & _) | [(_ & Hx & E') | (_ & Hx & E')]].
  - exfalso. eapply settles_waits_excl; [exact Hs|apply Hnt].
  - rewrite E' in E. injection E as <- <-.
    unfold w0 in *. cbn [now calls emit after_fetch] in *.
    repeat split; lia.
  - rewrite E' in E. clear E'.
    set (w3 := after_sleep host (interval o) _) in *.
    assert (now w3 - now w >= 1) as Hn3.
    { pose proof (proj2 Hc (timers w)). unfold w3, w0.
      cbn [now calls timers emit after_fetch after_sleep]. lia. }
    assert (calls w3 = S (calls w)) as Hc3 by reflexivity.
    pose proof (after_fetch_now host o Hc w3) as Hf3.
    unfold w0 in Hx. cbn [now calls emit after_fetch] in Hx.
    destruct (poll_loop_inv host n o (now w) w3)
      as [(r' & Hs & _) | [(_ & Hy & E') | (_ & Hy & _)]].
    + exfalso. eapply settles_waits_excl; [exact Hs|apply Hnt].
    + rewrite E' in E. injection E as <- <-.
      cbn [calls emit after_fetch]. rewrite Hc3.
      repeat split; lia.
    + lia.
Qed.

Lemma zero_timeout_fetches_witness :
  let o := sample 10 0 in
  let h := slow "RUNNING" in
  let run := pollFlowRunUntilComplete h 2 o boot in
  causal h /\ never_terminal h /\ timeoutMs o = Some 0 /\ (2 <= 2)%nat
  /\ 0 < latency (net h (calls boot))
  /\ fst run = Throw PollingTimeout
  /\ calls (snd run) = S (calls boot).
Proof.
  intros o h run.
  assert (causal h) as Hc by (apply scripted_causal; [constructor|cbn; lia]).
  assert (never_terminal h) as Hn.
  { intros k. exists (status_payload "RUNNING"), (str "RUNNING").
    split; [exists 200; destruct k; now split|].
    split; [reflexivity|].
    unfold non_terminal, str. repeat split; discriminate. }
  assert (0 < latency (net h (calls boot))) as Hl by (cbn; lia).
  pose proof (zero_timeout_fetches h 2 o boot Hc Hn eq_refl (le_n 2))
    as (H1 & H2 & _).
  repeat (split; [first [assumption | reflexivity | apply le_n]|]).
  exact (H2 Hl).
Defined.

(* ===================================================================== *)
(** ** More on the poller and the facade                                  *)
(* ===================================================================== *)

(** X1.  The poller stops at the first reply that settles it: when it has
    settled, every reply before the last was a status in a state that is
    not terminal, the last reply is the one that settled it, or one more
    such status when the result is the timeout, and a returned status is
    the payload of the last reply. *)
Theorem poller_stops_at_first_settling_reply host fuel o w r w' :
  pollFlowRunUntilComplete host fuel o w = (r, w') ->
  r <> Pending ->
  (calls w < calls w')%nat
  /\ (forall k, (calls w <= k)%nat -> (S k < calls w')%nat -> waits host k)
  /\ (r = Throw PollingTimeout -> waits host (pred (calls w')))
  /\ (r <> Throw PollingTimeout -> settles host (pred (calls w')) r)
  /\ (forall j, r = Return j -> delivers host (pred (calls w')) j).
Proof.
  intros E Hr. rewrite pollFlowRunUntilComplete_eq in E.
  change (calls w) with (calls (emit (EvNow (now w)) w)).
  revert E Hr. generalize (emit (EvNow (now w)) w) as w0.
  generalize (now w) as st. intros st w0 E. revert fuel w0 r w' E.
  apply (poll_loop_passes host o st
           (fun _ w0 r w' =>
              r <> Pending ->
              (calls w0 < calls w')%nat
              /\ (forall k, (calls w0 <= k)%nat -> (S k < calls w')%nat ->
                            waits host k)
              /\ (r = Throw PollingTimeout -> waits host (pred (calls w')))
              /\ (r <> Throw PollingTimeout ->
                  settles host (pred (calls w')) r)
              /\ (forall j, r = Return j ->
                            delivers host (pred (calls w')) j))).
  - congruence.
  - intros n w0 r Hs _. cbn [calls after_fetch pred].
    split; [lia|]. split; [intros; lia|]. split.
    + intros ->. now apply settles_not_timeout in Hs.
    + split; [auto|]. intros j ->. now inversion Hs.
  - intros n w0 Hw _ _. cbn [calls after_fetch emit pred].
    split; [lia|]. split; [intros; lia|]. split; [auto|].
    split; [congruence|discriminate].
  - intros n w0 r w' Hw _ w3 _ IH Hr.
    destruct (IH Hr) as (H1 & H2 & H3 & H4 & H5). unfold w3 in *.
    cbn [calls after_fetch emit after_sleep] in *.
    split; [lia|]. split; [|auto].
    intros k Hk1 Hk2.
    destruct (Nat.eq_dec k (calls w0)) as [-> | Hne]; [exact Hw|].
    apply H2; lia.
Qed.

Lemma poller_stops_at_first_settling_reply_witness :
  let run := pollFlowRunUntilComplete three_step 5 (sample 10 10000) boot in
  fst run = Return (status_payload "DONE")
  /\ waits three_step 0 /\ waits three_step 1
  /\ delivers three_step 2 (status_payload "DONE").
Proof.
  intros run.
  destruct (poller_stops_at_first_settling_reply three_step 5
              (sample 10 10000) boot (fst run) (snd run) eq_refl
              ltac:(discriminate))
    as (_ & Hw & _ & _ & Hd).
  split; [reflexivity|].
  split; [apply Hw; cbn; lia|]. split; [apply Hw; cbn; lia|].
  exact (Hd (status_payload "DONE") eq_refl).
Defined.

(** X2.  Fetches and waits alternate: a poller that has settled has armed one
    timer fewer than it has made fetches, and, where time does not run
    backwards, the clock has advanced by at least the delay of each of
    those timers. *)
Theorem poller_waits_between_fetches host fuel o w r w' :
  pollFlowRunUntilComplete host fuel o w = (r, w') ->
  r <> Pending ->
  (calls w' + timers w = calls w + timers w' + 1)%nat
  /\ (causal host ->
      (Z.of_nat (calls w' - calls w) - 1) * timer_delay (interval o)
      <= now w' - now w).
Proof.
  intros E Hr. rewrite pollFlowRunUntilComplete_eq in E.
  assert (forall n w0 r w',
            poll_loop host n o (now w) w0 = (r, w') -> r <> Pending ->
            (calls w' + timers w0 = calls w0 + timers w' + 1)%nat
            /\ (causal host ->
                (Z.of_nat (calls w' - calls w0) - 1)
                  * timer_delay (interval o)
                <= now w' - now w0)) as H.
  { apply (poll_loop_passes host o (now w)
             (fun _ w0 r w' =>
                r <> Pending ->
                (calls w' + timers w0 = calls w0 + timers w' + 1)%nat
                /\ (causal host ->
                    (Z.of_nat (calls w' - calls w0) - 1)
                      * timer_delay (interval o)
                    <= now w' - now w0))).
    - congruence.
    - intros n w0 r0 _ _. cbn [calls timers now after_fetch].
      split; [lia|]. intros [Hl _]. specialize (Hl (calls w0)).
      replace (S (calls w0) - calls w0)%nat with 1%nat by lia. lia.
    - intros n w0 _ _ _. cbn [calls timers now after_fetch emit].
      split; [lia|]. intros [Hl _]. specialize (Hl (calls w0)).
      replace (S (calls w0) - calls w0)%nat with 1%nat by lia. lia.
    - intros n w0 r0 w1 _ _ w3 E3 IH Hr0.
      destruct (IH Hr0) as [IH1 IH2]. unfold w3 in *.
      apply poll_loop_calls in E3 as [[E3 _] _].
      cbn [calls timers now after_fetch emit after_sleep] in *.
      split; [lia|]. intros Hc. specialize (IH2 Hc).
      destruct Hc as [Hl Ht].
      specialize (Hl (calls w0)). specialize (Ht (timers w0)).
      pose proof (timer_delay_pos (interval o)).
      replace (Z.of_nat (calls w1 - calls w0))
        with (Z.of_nat (calls w1 - S (calls w0)) + 1) by lia.
      nia. }
  destruct (H fuel _ r w' E Hr) as [H1 H2].
  cbn [calls timers now emit] in H1, H2. now split.
Qed.

Lemma poller_waits_between_fetches_witness :
  let w' := snd (pollFlowRunUntilComplete three_step 5 (sample 10 10000) boot) in
  calls w' = 3%nat /\ timers w' = 2%nat /\ 20 <= now w' - now boot.
Proof.
  intros w'.
  destruct (poller_waits_between_fetches three_step 5 (sample 10 10000) boot
              _ w' eq_refl ltac:(discriminate)) as [H1 H2].
  specialize (H2 three_step_causal).
  split; [reflexivity|]. split; [reflexivity|].
  exact H2.
Defined.

(** The loop reaches a reply that comes in time: after [m] replies that
    are not terminal, with the time they can take within the deadline. *)
Lemma poll_loop_reaches host o st L D :
  causal host ->
  (forall k, latency (net host k) <= L) ->
  (forall k, lateness host k <= D) ->
  forall m fuel w,
    (forall k, (k < m)%nat -> waits host (calls w + k)) ->
    ((0 < m)%nat ->
     now w - st + Z.of_nat m * L
       + (Z.of_nat m - 1) * (timer_delay (interval o) + D)
     <= deadline o) ->
    exists wm,
      poll_loop host (m + fuel) o st w = poll_loop host fuel o st wm
      /\ calls wm = (calls w + m)%nat.
Proof.
  intros Hc HL HD.
  assert (0 <= L) as HL0
    by (destruct Hc as [H _]; specialize (H O); specialize (HL O); lia).
  assert (0 <= D) as HD0
    by (destruct Hc as [_ H]; specialize (H O); specialize (HD O); lia).
  pose proof (timer_delay_pos (interval o)) as Hpos.
  induction m as [|m IH]; intros fuel w Hw Ht.
  - exists w. split; [reflexivity|lia].
  - cbn [Nat.add].
    destruct (poll_loop_inv host (m + fuel) o st w)
      as [(r' & Hs & _) | [(_ & Hd & _) | (_ & Hd & E)]].
    + exfalso. eapply settles_waits_excl; [exact Hs|].
      specialize (Hw O ltac:(lia)). now rewrite Nat.add_0_r in Hw.
    + specialize (Ht ltac:(lia)). specialize (HL (calls w)).
      cbn [now after_fetch] in Hd. nia.
    + rewrite E.
      set (w3 := after_sleep host (interval o) _).
      destruct (IH fuel w3) as (wm & Em & Hm).
      * intros k Hk. unfold w3. cbn [calls after_sleep emit after_fetch].
        replace (S (calls w) + k)%nat with (calls w + S k)%nat by lia.
        apply Hw. lia.
      * intros Hm. specialize (Ht ltac:(lia)).
        specialize (HL (calls w)). specialize (HD (timers w)).
        unfold w3. cbn [now timers after_sleep emit after_fetch]. nia.
      * exists wm. split; [exact Em|]. rewrite Hm. unfold w3.
        cbn [calls after_sleep emit after_fetch]. lia.
Qed.

(** X3.  A run that finishes in time is seen to finish.  When the first [m]
    replies are statuses that are not terminal, the next one is a status
    in state DONE (or FAILED or TERMINATED), and [m] calls of at most [L]
    ms with the [m - 1] waits between them, each at most [D] ms late, fit
    in the deadline, the poller returns that status (or throws the failure
    of the run) after exactly [m + 1] fetches. *)
Theorem poller_sees_run_finish host o w L D m j v fuel :
  causal host ->
  (forall k, latency (net host k) <= L) ->
  (forall k, lateness host k <= D) ->
  (forall k, (k < m)%nat -> waits host (calls w + k)) ->
  ((0 < m)%nat ->
   Z.of_nat m * L + (Z.of_nat m - 1) * (timer_delay (interval o) + D)
   <= deadline o) ->
  delivers host (calls w + m) j ->
  member j "state" = Return v ->
  (m < fuel)%nat ->
  exists w',
    calls w' = (calls w + m + 1)%nat
    /\ (is_done v ->
        pollFlowRunUntilComplete host fuel o w = (Return j, w'))
    /\ (is_failure v ->
        pollFlowRunUntilComplete host fuel o w = (Throw (FlowFailed v), w')).
Proof.
  intros Hc HL HD Hw Ht Hd Hm Hf.
  rewrite pollFlowRunUntilComplete_eq.
  destruct (poll_loop_reaches host o (now w) L D Hc HL HD m (fuel - m)
              (emit (EvNow (now w)) w))
    as (wm & E & Hcalls).
  - exact Hw.
  - intros H. specialize (Ht H). cbn [now emit]. lia.
  - replace (m + (fuel - m))%nat with fuel in E by lia. rewrite E.
    cbn [calls emit] in Hcalls.
    destruct (fuel - m)%nat as [|n] eqn:F; [lia|].
    exists (after_fetch host (get_run_request o) wm).
    assert (getFlowRunDetails host o wm
            = (Return j, after_fetch host (get_run_request o) wm)) as G.
    { apply getFlowRunDetails_delivers. now rewrite Hcalls. }
    split; [cbn [calls after_fetch]; lia|]. split.
    + intros Hv. unfold is_done in Hv. subst v. now apply poll_loop_done.
    + intros Hv. now apply poll_loop_failure with j.
Qed.

Lemma poller_sees_run_finish_witness :
  exists w',
    calls w' = 3%nat
    /\ pollFlowRunUntilComplete three_step 3 (sample 10 100) boot
       = (Return (status_payload "DONE"), w').
Proof.
  assert (forall k, latency (net three_step k) <= 5) as HL
    by (intros [|[|[|k]]]; cbn; lia).
  assert (forall k, lateness three_step k <= 0) as HD by (intros k; cbn; lia).
  assert (forall k, (k < 2)%nat -> waits three_step (calls boot + k)) as Hw.
  { intros k Hk.
    assert (k = 0 \/ k = 1)%nat as [-> | ->] by lia.
    - exists (status_payload "PENDING"), (str "PENDING").
      split; [now exists 200|]. split; [reflexivity|].
      unfold non_terminal, str. repeat split; discriminate.
    - exists (status_payload "RUNNING"), (str "RUNNING").
      split; [now exists 200|]. split; [reflexivity|].
      unfold non_terminal, str. repeat split; discriminate. }
  destruct (poller_sees_run_finish three_step (sample 10 100) boot 5 0 2
              (status_payload "DONE") (str "DONE") 3
              three_step_causal HL HD Hw ltac:(intros _; cbn; lia)
              ltac:(now exists 200) eq_refl ltac:(lia))
    as (w' & Hc & Hdone & _).
  exists w'. split; [exact Hc|]. now apply Hdone.
Defined.

(* ===================================================================== *)
(** ** More on the facade                                                 *)
(* ===================================================================== *)

(** X4.  What the facade returns: the response of its launch as
    [startDetails], and as [finalResult] the status in state DONE that the
    poller returned for the run id of that response, after at least one
    status fetch. *)
Theorem facade_returns_launch_and_done host fuel o w res w' :
  startAndWaitForFlow host fuel o w = (Return res, w') ->
  exists w1 run_id,
    startGumloopFlow host o w = (Return (startDetails res), w1)
    /\ member (startDetails res) "run_id" = Return run_id
    /\ pollFlowRunUntilComplete host fuel (poll_options o run_id)
         (emit (EvConsoleLog run_id) w1)
       = (Return (finalResult res), w')
    /\ member (finalResult res) "state" = Return (str "DONE")
    /\ (calls w + 2 <= calls w')%nat.
Proof.
  intros E. rewrite startAndWaitForFlow_eq in E.
  destruct (startGumloopFlow host o w) as [[flowStart|e|] w1] eqn:L;
    try discriminate.
  destruct (member flowStart "run_id") as [run_id|e|] eqn:M;
    try discriminate.
  destruct (pollFlowRunUntilComplete host fuel (poll_options o run_id) _)
    as [[final|e|] w2] eqn:P; try discriminate.
  injection E as <- <-. cbn [startDetails finalResult].
  exists w1, run_id. repeat split; try assumption.
  - pose proof P as P'. rewrite pollFlowRunUntilComplete_eq in P'.
    apply poll_loop_result in P' as [H | [H | (w0 & Hs & _)]];
      [discriminate..|].
    now inversion Hs.
  - rewrite startGumloopFlow_eq in L. injection L as _ <-.
    rewrite pollFlowRunUntilComplete_eq in P.
    apply poll_loop_calls in P as [_ P]. specialize (P ltac:(discriminate)).
    cbn [calls emit after_fetch] in P. lia.
Qed.

Lemma facade_returns_launch_and_done_witness :
  exists w1 run_id w',
    startGumloopFlow launches_then_done (sample 10 50) boot
    = (Return (JObj [("run_id"%string, JStr "run-9")]), w1)
    /\ run_id = str "run-9"
    /\ pollFlowRunUntilComplete launches_then_done 5
         (poll_options (sample 10 50) run_id)
         (emit (EvConsoleLog run_id) w1)
       = (Return (status_payload "DONE"), w')
    /\ (calls boot + 2 <= calls w')%nat.
Proof.
  destruct (facade_returns_launch_and_done launches_then_done 5
              (sample 10 50) boot
              {| startDetails := JObj [("run_id"%string, JStr "run-9")];
                 finalResult := status_payload "DONE" |}
              (snd (startAndWaitForFlow launches_then_done 5
                      (sample 10 50) boot))
              eq_refl)
    as (w1 & run_id & L & M & P & _ & C).
  exists w1, run_id. eexists. cbn [startDetails finalResult] in *.
  split; [exact L|]. split; [cbn in M; now injection M as <-|].
  split; [exact P|exact C].
Defined.

(** The poller writes nothing to the error console. *)
Lemma poller_no_console_error host fuel o w r w' e :
  pollFlowRunUntilComplete host fuel o w = (r, w') ->
  In (EvConsoleError e) (log w') -> In (EvConsoleError e) (log w).
Proof.
  intros E Hin. rewrite pollFlowRunUntilComplete_eq in E.
  apply poll_loop_trace in E as (tr & El & Htr).
  rewrite El in Hin. cbn [log emit] in Hin.
  rewrite !in_app_iff in Hin.
  destruct Hin as [[Hin | [Hin | []]] | Hin]; [assumption|discriminate|].
  exfalso. clear El.
  induction Htr; cbn in Hin;
    repeat (destruct Hin as [Hin | Hin]; [discriminate|]); auto.
Qed.

(** X5.  What the facade throws: the error of the launch, of reading the run id,
    or of the poller, unchanged, written to the console once, as the last
    thing the facade does. *)
Theorem facade_rethrows host fuel o w e w' :
  startAndWaitForFlow host fuel o w = (Throw e, w') ->
  exists w0,
    w' = emit (EvConsoleError e) w0
    /\ (startGumloopFlow host o w = (Throw e, w0)
        \/ (exists flowStart,
               startGumloopFlow host o w = (Return flowStart, w0)
               /\ member flowStart "run_id" = Throw e)
        \/ (exists flowStart w1 run_id,
               startGumloopFlow host o w = (Return flowStart, w1)
               /\ member flowStart "run_id" = Return run_id
               /\ pollFlowRunUntilComplete host fuel (poll_options o run_id)
                    (emit (EvConsoleLog run_id) w1)
                  = (Throw e, w0)))
    /\ (forall e', In (EvConsoleError e') (log w0) ->
                   In (EvConsoleError e') (log w)).
Proof.
  intros E. rewrite startAndWaitForFlow_eq in E.
  destruct (startGumloopFlow host o w) as [[flowStart|e0|] w1] eqn:L;
    try discriminate;
    pose proof L as L'; rewrite startGumloopFlow_eq in L';
    injection L' as _ <-.
  - destruct (member flowStart "run_id") as [run_id|e0|] eqn:M;
      try discriminate.
    + destruct (pollFlowRunUntilComplete host fuel (poll_options o run_id) _)
        as [[final|e0|] w2] eqn:P; try discriminate.
      injection E as <- <-. exists w2. split; [reflexivity|]. split.
      * right; right.
        exists flowStart, (after_fetch host (start_pipeline_request o) w),
          run_id.
        now repeat split.
      * intros e' Hin.
        apply (poller_no_console_error _ _ _ _ _ _ _ P) in Hin.
        cbn [log emit after_fetch] in Hin. rewrite !in_app_iff in Hin.
        destruct Hin as [[Hin | [Hin | []]] | [Hin | []]];
          [assumption|discriminate..].
    + injection E as <- <-. eexists. split; [reflexivity|]. split.
      * right; left. now exists flowStart.
      * cbn [log after_fetch]. intros e' Hin.
        apply in_app_or in Hin as [Hin | [Hin | []]];
          [assumption|discriminate].
  - injection E as <- <-. eexists. split; [reflexivity|].
    split; [now left|].
    cbn [log after_fetch]. intros e' Hin.
    apply in_app_or in Hin as [Hin | [Hin | []]]; [assumption|discriminate].
Qed.

Lemma facade_rethrows_witness :
  exists w0,
    snd (startAndWaitForFlow unreachable 5 (sample 10 50) boot)
    = emit (EvConsoleError FetchError) w0
    /\ forall e', ~ In (EvConsoleError e') (log w0).
Proof.
  destruct (facade_rethrows unreachable 5 (sample 10 50) boot FetchError
              (snd (startAndWaitForFlow unreachable 5 (sample 10 50) boot))
              eq_refl)
    as (w0 & E & _ & H).
  exists w0. split; [exact E|]. intros e' Hin. exact (H e' Hin).
Defined.

(** The first thing the poller does after reading the clock is a fetch. *)
Lemma poller_first_fetch host n o w r w' :
  pollFlowRunUntilComplete host (S n) o w = (r, w') ->
  exists tr,
    log w' = log w ++ EvNow (now w) :: EvFetch (get_run_request o) :: tr.
Proof.
  intros E. rewrite pollFlowRunUntilComplete_eq in E.
  destruct (poll_loop_inv host n o (now w) (emit (EvNow (now w)) w))
    as [(r' & Hr & E') | [(Hw & Hd & E') | (Hw & Hd & E')]];
    rewrite E' in E.
  - injection E as <- <-. exists []. cbn [log emit after_fetch].
    now rewrite <- app_assoc.
  - injection E as <- <-. eexists. cbn [log emit after_fetch].
    now rewrite <- !app_assoc.
  - apply poll_loop_trace in E as (tr & El & _). eexists. rewrite El.
    cbn [log emit after_fetch after_sleep]. now rewrite <- !app_assoc.
Qed.

(** X6.  The facade does not check the response of the launch.  A response that
    is [null] makes it throw the TypeError of reading [run_id], after the
    launch alone; a response without [run_id] makes it poll for the run id
    [undefined]. *)
Theorem facade_trusts_launch_response host fuel o w :
  (delivers host (calls w) JNull ->
   exists w',
     startAndWaitForFlow host fuel o w = (Throw (TypeError "run_id"), w')
     /\ calls w' = S (calls w))
  /\ (forall flowStart r w',
        delivers host (calls w) flowStart ->
        member flowStart "run_id" = Return undefined ->
        startAndWaitForFlow host (S fuel) o w = (r, w') ->
        exists t tr,
          log w' = log w
                     ++ EvFetch (start_pipeline_request o)
                     :: EvConsoleLog undefined
                     :: EvNow t
                     :: EvFetch (get_run_request (poll_options o undefined))
                     :: tr
          /\ hd_error (query (get_run_request (poll_options o undefined)))
             = Some ("run_id"%string, undefined)).
Proof.
  assert (forall j, delivers host (calls w) j ->
            startGumloopFlow host o w
            = (Return j, after_fetch host (start_pipeline_request o) w))
    as Hl.
  { intros j (s & H1 & H2). rewrite startGumloopFlow_eq. now rewrite H1, H2. }
  split.
  - intros Hd. rewrite startAndWaitForFlow_eq, (Hl _ Hd). cbn [member].
    eexists. split; reflexivity.
  - intros flowStart r w' Hd Hm E.
    rewrite startAndWaitForFlow_eq, (Hl _ Hd), Hm in E.
    set (w1 := emit (EvConsoleLog undefined) _) in E.
    destruct (pollFlowRunUntilComplete host (S fuel)
                (poll_options o undefined) w1) as [r2 w2] eqn:P.
    destruct (poller_first_fetch host fuel (poll_options o undefined)
                w1 r2 w2 P) as (tr & Htr).
    unfold w1 in Htr. cbn [log emit after_fetch now] in Htr.
    rewrite <- !app_assoc in Htr. cbn [app] in Htr.
    destruct r2 as [final|e|]; injection E as <- <-.
    + eexists _, tr. split; [exact Htr|reflexivity].
    + eexists _, (tr ++ [EvConsoleError e]). cbn [log emit].
      rewrite Htr, <- !app_assoc. split; reflexivity.
    + eexists _, tr. split; [exact Htr|reflexivity].
Qed.

Lemma facade_trusts_launch_response_witness :
  let h := scripted [delivered 5 JNull] (delivered 5 (status_payload "DONE")) in
  delivers h (calls boot) JNull
  /\ exists w',
      startAndWaitForFlow h 5 (sample 10 50) boot
      = (Throw (TypeError "run_id"), w')
      /\ calls w' = S (calls boot).
Proof.
  intros h.
  assert (delivers h (calls boot) JNull) as Hd by (now exists 200).
  split; [exact Hd|].
  exact (proj1 (facade_trusts_launch_response h 5 (sample 10 50) boot) Hd).
Defined.

(* ===================================================================== *)
(** ** The routes: keys and entries                                       *)
(* ===================================================================== *)

Module RoutesFacts.

Import Routes.

Lemma put_same key value m : put key value m key = Some value.
Proof. unfold put. now rewrite String.eqb_refl. Qed.

Lemma put_other key value m k : k <> key -> put key value m k = m k.
Proof. unfold put. intros H. apply String.eqb_neq in H. now rewrite H. Qed.

(** The key of a path is never the key of the list of paths, and two paths
    have two keys. *)
Lemma path_key_not_all_paths p : ("path:" ++ p)%string <> "all_paths"%string.
Proof. discriminate. Qed.

Lemma path_key_inj p q : ("path:" ++ p)%string = ("path:" ++ q)%string -> p = q.
Proof. cbn. congruence. Qed.

(** *** The own keys of an object *)

Lemma existsb_eqb_In k l : existsb (String.eqb k) l = true <-> In k l.
Proof.
  rewrite existsb_exists. split.
  - intros (x & Hin & E). apply String.eqb_eq in E. now subst.
  - intros H. exists k. split; [assumption|apply String.eqb_refl].
Qed.

Lemma distinct_In seen ks k :
  In k (distinct seen ks) <-> In k ks /\ ~ In k seen.
Proof.
  revert seen. induction ks as [|x ks IH]; intros seen; cbn.
  - tauto.
  - destruct (existsb (String.eqb x) seen) eqn:E.
    + apply existsb_eqb_In in E. rewrite IH.
      split; [tauto|]. intros [[-> | H] Hn]; tauto.
    + assert (~ In x seen) as Hx
        by (rewrite <- existsb_eqb_In; congruence).
      cbn. rewrite IH. cbn. split.
      * intros [-> | [H Hn]]; [tauto|]. split; [tauto|]. tauto.
      * intros [[-> | H] Hn]; [tauto|].
        destruct (string_dec x k) as [-> | Hne]; [tauto|]. right.
        split; [assumption|]. intros [Hxk | Hs]; [congruence|tauto].
Qed.

Lemma distinct_NoDup seen ks : NoDup (distinct seen ks).
Proof.
  revert seen. induction ks as [|x ks IH]; intros seen; cbn.
  - constructor.
  - destruct (existsb (String.eqb x) seen); [apply IH|].
    constructor; [|apply IH].
    rewrite distinct_In. cbn. tauto.
Qed.

Lemma insert_index_perm n k l :
  Permutation.Permutation (map snd (insert_index n k l)) (k :: map snd l).
Proof.
  induction l as [|[m k'] l IH]; cbn.
  - apply Permutation.Permutation_refl.
  - destruct (n <=? m)%N; cbn.
    + apply Permutation.Permutation_refl.
    + eapply Permutation.perm_trans;
        [apply Permutation.perm_skip, IH|apply Permutation.perm_swap].
Qed.

Lemma own_keys_perm ks :
  Permutation.Permutation (map snd (index_keys ks) ++ named_keys ks) ks.
Proof.
  induction ks as [|k ks IH]; cbn.
  - constructor.
  - destruct (array_index k) as [n|].
    + eapply Permutation.perm_trans;
        [apply Permutation.Permutation_app_tail, insert_index_perm|].
      cbn. now apply Permutation.perm_skip.
    + eapply Permutation.perm_trans;
        [apply Permutation.Permutation_sym, Permutation.Permutation_middle|].
      now apply Permutation.perm_skip.
Qed.

Lemma own_keys_NoDup fields : NoDup (own_keys fields).
Proof.
  unfold own_keys.
  eapply Permutation.Permutation_NoDup;
    [apply Permutation.Permutation_sym, own_keys_perm|apply distinct_NoDup].
Qed.

Lemma own_keys_In fields k : In k (own_keys fields) <-> In k (map fst fields).
Proof.
  unfold own_keys. split; intros H.
  - eapply Permutation.Permutation_in in H; [|apply own_keys_perm].
    now apply distinct_In in H.
  - eapply Permutation.Permutation_in;
      [apply Permutation.Permutation_sym, own_keys_perm|].
    apply distinct_In. cbn. tauto.
Qed.

Lemma lookup_In k fields : lookup k fields <> None <-> In k (map fst fields).
Proof.
  induction fields as [|[k' v] fields IH]; cbn.
  - tauto.
  - destruct (lookup k fields) as [x|].
    + split; [intros _; right; apply IH; discriminate|discriminate].
    + destruct (String.eqb_spec k k') as [-> | Hne].
      * split; [now left|discriminate].
      * split; [congruence|]. intros [E | H]; [congruence|]. now apply IH.
Qed.

(** The entries of an object: one for each of its keys, with the value the
    key holds. *)
Lemma object_entries_keys fields :
  map fst (flat_map (fun k => match lookup k fields with
                              | Some x => [(k, x)]
                              | None => []
                              end) (own_keys fields))
  = own_keys fields.
Proof.
  assert (forall ks, (forall k, In k ks -> In k (map fst fields)) ->
            map fst (flat_map (fun k => match lookup k fields with
                                        | Some x => [(k, x)]
                                        | None => []
                                        end) ks) = ks) as H.
  { induction ks as [|k ks IH]; intros Hin; [reflexivity|].
    cbn. destruct (lookup k fields) as [x|] eqn:E.
    - cbn. f_equal. apply IH. intros k' Hk. apply Hin. now right.
    - exfalso. apply (proj2 (lookup_In k fields)); [|exact E].
      apply Hin. now left. }
  apply H. intros k. apply own_keys_In.
Qed.

Lemma index_key_inj i j : index_key i = index_key j -> i = j.
Proof.
  unfold index_key. intros H.
  apply DecimalN.Unsigned.to_uint_inj.
  assert (forall n, N.to_uint n <> Decimal.Nil) as Hn.
  { intros [|p]; [discriminate|apply DecimalPos.Unsigned.to_uint_nonnil]. }
  pose proof (DecimalString.NilZero.usu _ (Hn i)) as Hi.
  pose proof (DecimalString.NilZero.usu _ (Hn j)) as Hj.
  rewrite H in Hi. congruence.
Qed.

Lemma indexed_keys i items k :
  In k (map fst (indexed i items)) -> exists j, (i <= j)%N /\ k = index_key j.
Proof.
  revert i. induction items as [|x items IH]; intros i; cbn; [tauto|].
  intros [<- | H].
  - exists i. split; [lia|reflexivity].
  - apply IH in H as (j & Hj & ->). exists j. split; [lia|reflexivity].
Qed.

Lemma indexed_NoDup i items : NoDup (map fst (indexed i items)).
Proof.
  revert i. induction items as [|x items IH]; intros i; cbn; constructor.
  - intros H. apply indexed_keys in H as (j & Hj & E).
    apply index_key_inj in E. lia.
  - apply IH.
Qed.

(** [Object.entries] never lists a key twice. *)
Lemma entries_NoDup v es : entries v = inr es -> NoDup (map fst es).
Proof.
  destruct v as [[| | | | |fields]|]; cbn; try discriminate;
    intros E; injection E as <-; try constructor;
    try apply indexed_NoDup.
  rewrite object_entries_keys. apply own_keys_NoDup.
Qed.

(* ===================================================================== *)
(** ** The routes: storing the paths                                      *)
(* ===================================================================== *)

Section Storing.

Variable plat : Platform.

(** No redis command from the [c]-th to before the [c + n]-th rejects. *)
Local Abbreviation quiet c n :=
  (forall k, (c <= k < c + n)%nat -> redis_fault plat k = None).

Lemma written_cons p info es m :
  written plat ((p, info) :: es) m
  = written plat es (put ("path:" ++ p) (stringify plat info) m).
Proof. reflexivity. Qed.

Lemma written_other es m key :
  (forall p, In p (map fst es) -> key <> ("path:" ++ p)%string) ->
  written plat es m key = m key.
Proof.
  revert m. induction es as [|[p info] es IH]; intros m H; [reflexivity|].
  rewrite written_cons.
  rewrite IH by (intros q Hq; apply H; now right).
  apply put_other. apply H. now left.
Qed.

Lemma written_in es m p info :
  NoDup (map fst es) -> In (p, info) es ->
  written plat es m ("path:" ++ p)%string = Some (stringify plat info).
Proof.
  revert m. induction es as [|[q x] es IH]; intros m Hnd Hin; [contradiction|].
  cbn [map fst] in Hnd. inversion Hnd as [|? ? Hq Hnd']; subst.
  rewrite written_cons.
  destruct Hin as [E | Hin].
  - injection E as -> ->. rewrite written_other; [apply put_same|].
    intros q Hq' E. apply path_key_inj in E. now subst.
  - now apply IH.
Qed.

Lemma store_each_quiet es s :
  quiet (commands s) (List.length es) ->
  store_each plat es s =
  (inr tt,
   {| store := written plat es (store s);
      commands := commands s + List.length es;
      requests := requests s; sent := sent s |}).
Proof.
  revert s. induction es as [|[p info] es IH]; intros s Hq.
  - cbn. unfold ret. destruct s; cbn. now rewrite Nat.add_0_r.
  - cbn [store_each]. unfold bind at 1, redis_set.
    rewrite (Hq (commands s)) by (cbn; lia).
    rewrite IH by (intros k Hk; apply Hq; cbn in *; lia).
    cbn. do 2 f_equal. lia.
Qed.

Lemma store_each_fault es s i message :
  (i < List.length es)%nat ->
  quiet (commands s) i ->
  redis_fault plat (commands s + i) = Some message ->
  store_each plat es s =
  (inl (RedisError message),
   {| store := written plat (firstn i es) (store s);
      commands := commands s + i + 1;
      requests := requests s; sent := sent s |}).
Proof.
  revert s i. induction es as [|[p info] es IH]; intros s i Hi Hq Hf.
  - cbn in Hi. lia.
  - cbn [store_each]. unfold bind at 1, redis_set.
    destruct i as [|i].
    + rewrite Nat.add_0_r in Hf. rewrite Hf. cbn.
      unfold issued. do 2 f_equal. lia.
    + rewrite (Hq (commands s)) by lia.
      rewrite (IH (issued s (put ("path:" ++ p) (stringify plat info) (store s)))
                 i).
      * cbn. do 2 f_equal. lia.
      * cbn in Hi. lia.
      * intros k Hk. apply Hq. cbn in Hk. lia.
      * cbn. now replace (S (commands s + i))%nat
          with (commands s + S i)%nat by lia.
Qed.

(** The server once [storePathsInRedis] has run without a fault. *)
Lemma storePathsInRedis_quiet paths es s :
  entries paths = inr es ->
  quiet (commands s) (S (List.length es)) ->
  storePathsInRedis plat paths s =
  (inr tt,
   {| store := put "all_paths" (all_paths_value plat es)
                 (written plat es (store s));
      commands := S (commands s + List.length es);
      requests := requests s; sent := sent s |}).
Proof.
  intros E Hq.
  unfold storePathsInRedis, try_catch, bind, lift. rewrite E.
  rewrite store_each_quiet by (intros k Hk; apply Hq; lia).
  unfold redis_set. cbn [commands store].
  now rewrite (Hq (commands s + List.length es)%nat) by lia.
Qed.

Lemma stored_path paths es m p info :
  entries paths = inr es -> In (p, info) es ->
  put "all_paths" (all_paths_value plat es) (written plat es m)
    ("path:" ++ p)%string
  = Some (stringify plat info).
Proof.
  intros E Hin. rewrite put_other by apply path_key_not_all_paths.
  apply written_in; [now apply entries_NoDup with paths|assumption].
Qed.

(** X7.  Storing the paths of a specification: when no command rejects, every
    path is under its key with its item serialised, the list of the paths
    is under [all_paths], every other key is as it was, and one command
    was issued for each path and one for the list. *)
Theorem store_paths_round_trip paths es s :
  entries paths = inr es ->
  quiet (commands s) (S (List.length es)) ->
  exists s',
    storePathsInRedis plat paths s = (inr tt, s')
    /\ (forall p info,
          In (p, info) es ->
          store s' ("path:" ++ p)%string = Some (stringify plat info))
    /\ store s' "all_paths"%string
       = Some (stringify plat (JArr (map (fun e => JStr (fst e)) es)))
    /\ (forall key,
          key <> "all_paths"%string ->
          (forall p, In p (map fst es) -> key <> ("path:" ++ p)%string) ->
          store s' key = store s key)
    /\ commands s' = (commands s + List.length es + 1)%nat
    /\ requests s' = requests s /\ sent s' = sent s.
Proof.
  intros E Hq. rewrite (storePathsInRedis_quiet paths es s E Hq).
  eexists. split; [reflexivity|]. cbn [store commands requests sent].
  split; [|split; [|split; [|split; [|split]]]]; try reflexivity.
  - intros p info Hin. now apply stored_path with paths.
  - intros key Hk Hp. rewrite put_other by assumption.
    now apply written_other.
  - lia.
Qed.

(** X8.  A command that rejects stops the function there: the error is thrown
    again, the paths before it are stored, and every other key, the later
    paths and [all_paths] among them, is as it was. *)
Theorem store_paths_stops_at_fault paths es s i message :
  entries paths = inr es ->
  (i <= List.length es)%nat ->
  quiet (commands s) i ->
  redis_fault plat (commands s + i) = Some message ->
  exists s',
    storePathsInRedis plat paths s = (inl (RedisError message), s')
    /\ (forall p info,
          In (p, info) (firstn i es) ->
          store s' ("path:" ++ p)%string = Some (stringify plat info))
    /\ (forall key,
          (forall p, In p (map fst (firstn i es)) ->
                     key <> ("path:" ++ p)%string) ->
          store s' key = store s key)
    /\ store s' "all_paths"%string = store s "all_paths"%string
    /\ commands s' = (commands s + i + 1)%nat.
Proof.
  intros E Hi Hq Hf.
  assert (NoDup (map fst (firstn i es))) as Hnd.
  { pose proof (entries_NoDup _ _ E) as H.
    rewrite <- (firstn_skipn i es), map_app in H.
    now apply NoDup_app_remove_r in H. }
  unfold storePathsInRedis, try_catch, bind, lift. rewrite E.
  destruct (Nat.eq_dec i (List.length es)) as [-> | Hne].
  - rewrite store_each_quiet by assumption.
    unfold redis_set. cbn [commands store]. rewrite Hf.
    eexists. split; [reflexivity|]. cbn [store commands issued].
    rewrite firstn_all in *. split; [|split; [|split]].
    + intros p info Hin. now apply written_in.
    + intros key Hp. now apply written_other.
    + apply written_other. intros p _. apply not_eq_sym, path_key_not_all_paths.
    + lia.
  - rewrite (store_each_fault es s i message) by (assumption || lia).
    eexists. split; [reflexivity|]. cbn [store commands].
    split; [|split; [|split]].
    + intros p info Hin. now apply written_in.
    + intros key Hp. now apply written_other.
    + apply written_other. intros p _. apply not_eq_sym, path_key_not_all_paths.
    + reflexivity.
Qed.

(** X9.  The copy that reads each key back writes the same keys: when no
    command rejects, both functions return and leave the same value under
    every key; the copy issues twice the commands. *)
Theorem verified_store_same paths es s :
  entries paths = inr es ->
  (forall k, redis_fault plat k = None) ->
  exists s1 s2,
    storePathsInRedis plat paths s = (inr tt, s1)
    /\ storePathsInRedis_verified plat paths s = (inr tt, s2)
    /\ (forall key, store s2 key = store s1 key)
    /\ commands s1 = (commands s + List.length es + 1)%nat
    /\ commands s2 = (commands s + 2 * List.length es + 2)%nat.
Proof.
  intros E Hq.
  assert (forall l t,
            store_each_verified plat l t =
            (inr tt,
             {| store := written plat l (store t);
                commands := commands t + 2 * List.length l;
                requests := requests t; sent := sent t |})) as Hv.
  { induction l as [|[p info] l IH]; intros t.
    - cbn. unfold ret. destruct t; cbn. now rewrite Nat.add_0_r.
    - cbn [store_each_verified]. unfold bind, redis_set, redis_get.
      rewrite Hq. cbn [commands issued]. rewrite Hq.
      fold (bind (A := unit) (B := unit)). rewrite IH.
      cbn [store commands requests sent issued List.length].
      rewrite written_cons. do 2 f_equal. lia. }
  rewrite (storePathsInRedis_quiet paths es s E ltac:(intros; apply Hq)).
  eexists. eexists. split; [reflexivity|].
  unfold storePathsInRedis_verified, try_catch, bind, lift, ret.
  rewrite E, Hv. unfold redis_set, redis_get. cbn [commands issued].
  rewrite !Hq. split; [reflexivity|]. cbn [store commands issued].
  repeat split; lia.
Qed.

End Storing.

Lemma healthy_quiet c n :
  forall k, (c <= k < c + n)%nat -> redis_fault healthy k = None.
Proof. reflexivity. Qed.

Lemma store_paths_round_trip_witness :
  entries two_paths
  = inr [("/pets"%string, JObj []); ("/owners"%string, JObj [])]
  /\ exists s',
      storePathsInRedis healthy two_paths fresh = (inr tt, s')
      /\ store s' "path:/pets"%string = Some "{}"%string
      /\ commands s' = 3%nat.
Proof.
  split; [reflexivity|].
  destruct (store_paths_round_trip healthy two_paths _ fresh eq_refl
              (healthy_quiet _ _))
    as (s' & E & Hp & _ & _ & Hc & _).
  exists s'. split; [exact E|]. split; [|exact Hc].
  apply (Hp "/pets"%string (JObj [])). now left.
Defined.

Lemma store_paths_stops_at_fault_witness :
  let plat := toy (fun k => if Nat.eqb k 1 then Some "READONLY"%string else None)
                  (fun _ => HttpOk (JObj [])) in
  redis_fault plat (commands fresh + 1) = Some "READONLY"%string
  /\ exists s',
      storePathsInRedis plat two_paths fresh
      = (inl (RedisError "READONLY"), s')
      /\ store s' "path:/pets"%string = Some "{}"%string
      /\ store s' "path:/owners"%string = None
      /\ store s' "all_paths"%string = None.
Proof.
  intros plat. split; [reflexivity|].
  assert (forall k, (commands fresh <= k < commands fresh + 1)%nat ->
                    redis_fault plat k = None) as Hq.
  { intros k Hk. cbn in Hk. assert (k = 0%nat) as -> by lia. reflexivity. }
  destruct (store_paths_stops_at_fault plat two_paths _ fresh 1 "READONLY"
              eq_refl ltac:(cbn; lia) Hq eq_refl)
    as (s' & E & Hp & Ho & Ha & _).
  exists s'. split; [exact E|]. split; [|split].
  - apply (Hp "/pets"%string (JObj [])). now left.
  - rewrite Ho; [reflexivity|].
    intros p [<- | []]. discriminate.
  - exact Ha.
Defined.

Lemma verified_store_same_witness :
  exists s1 s2,
    storePathsInRedis healthy two_paths fresh = (inr tt, s1)
    /\ storePathsInRedis_verified healthy two_paths fresh = (inr tt, s2)
    /\ (forall key, store s2 key = store s1 key)
    /\ commands s1 = 3%nat /\ commands s2 = 6%nat.
Proof.
  exact (verified_store_same healthy two_paths _ fresh eq_refl
           (fun _ => eq_refl)).
Defined.

End RoutesFacts.

(* ===================================================================== *)
(** ** The routes: the handlers                                           *)
(* ===================================================================== *)

Module HandlerFacts.

Import Routes RoutesFacts.

Section Handlers.

Variable plat : Platform.

Local Abbreviation stored_message := "Paths stored in Redis successfully"%string.
Local Abbreviation invalid := "Invalid OpenAPI specification"%string.
Local Abbreviation quiet c n :=
  (forall k, (c <= k < c + n)%nat -> redis_fault plat k = None).

(** The loop of [storePathsInRedis] issues commands only. *)
Lemma store_each_silent es s r s' :
  store_each plat es s = (r, s') ->
  sent s' = sent s /\ requests s' = requests s
  /\ (forall e, r = inl e -> has_response e = false).
Proof.
  revert s. induction es as [|[p info] es IH]; intros s E.
  - cbn in E. injection E as <- <-. repeat split. discriminate.
  - cbn [store_each] in E. unfold bind at 1, redis_set in E.
    destruct (redis_fault plat (commands s)) as [message|].
    + injection E as <- <-. repeat split. intros e H. now injection H as <-.
    + apply IH in E as (H1 & H2 & H3). now repeat split.
Qed.

Lemma storePathsInRedis_silent paths s r s' :
  storePathsInRedis plat paths s = (r, s') ->
  sent s' = sent s /\ requests s' = requests s
  /\ (forall e, r = inl e -> has_response e = false).
Proof.
  unfold storePathsInRedis, try_catch, bind, lift, throw.
  destruct (entries paths) as [e|es] eqn:E.
  - intros H. injection H as <- <-. repeat split.
    intros e' H. injection H as <-.
    destruct paths as [[| | | | |]|]; cbn in E; try discriminate;
      now injection E as <-.
  - destruct (store_each plat es s) as [[e|[]] s1] eqn:S;
      apply store_each_silent in S as (H1 & H2 & H3).
    + intros H. injection H as <- <-. now repeat split.
    + unfold redis_set.
      destruct (redis_fault plat (commands s1)) as [message|];
        intros H; injection H as <- <-; cbn; repeat split; try assumption;
        try discriminate.
      intros e H. now injection H as <-.
Qed.

Lemma read_error v k e : read v k = inl e -> has_response e = false.
Proof.
  destruct v as [[| | | | |]|]; cbn; try discriminate;
    intros H; now injection H as <-.
Qed.

Lemma entries_error v e : entries v = inl e -> has_response e = false.
Proof.
  destruct v as [[| | | | |]|]; cbn; try discriminate;
    intros H; now injection H as <-.
Qed.

Lemma describe_methods_error es e :
  describe_methods es = inl e -> has_response e = false.
Proof.
  induction es as [|[m d] es IH]; cbn [describe_methods]; [discriminate|].
  destruct (is_method m); [|exact IH].
  destruct (read (Some d) "summary") as [e1|sm] eqn:R1; cbn [and_then].
  - intros H. injection H as <-. now apply read_error in R1.
  - destruct (read (Some d) "description") as [e2|ds] eqn:R2; cbn [and_then].
    + intros H. injection H as <-. now apply read_error in R2.
    + destruct (describe_methods es) as [e3|ms]; cbn [and_then];
        [|discriminate].
      intros H. injection H as <-. now apply IH.
Qed.

Lemma describe_paths_error es e :
  describe_paths es = inl e -> has_response e = false.
Proof.
  induction es as [|[p info] es IH]; cbn [describe_paths]; [discriminate|].
  destruct (entries (Some info)) as [e1|ms] eqn:E1; cbn [and_then].
  - intros H. injection H as <-. now apply entries_error in E1.
  - destruct (describe_methods ms) as [e2|methods] eqn:E2; cbn [and_then].
    + intros H. injection H as <-. now apply describe_methods_error in E2.
    + destruct (describe_paths es) as [e3|others]; cbn [and_then];
        [|discriminate].
      intros H. injection H as <-. now apply IH.
Qed.

(** [process], by what its steps give. *)
Lemma process_eq api s :
  process plat api s =
  match read (Some api) "paths" with
  | inl e => (inl e, s)
  | inr paths =>
      if truthy paths then
        match storePathsInRedis plat paths s with
        | (inl e, s1) => (inl e, s1)
        | (inr _, s1) =>
            match and_then (entries paths) describe_paths with
            | inl e => (inl e, s1)
            | inr ds => send 200 (PathsBody ds stored_message) s1
            end
        end
      else send 200 (PathsBody [] stored_message) s
  end.
Proof.
  unfold process, bind, lift, ret.
  destruct (read (Some api) "paths") as [e|paths]; [reflexivity|].
  destruct (truthy paths); [|reflexivity].
  destruct (storePathsInRedis plat paths s) as [[e|[]] s1]; [reflexivity|].
  now destruct (and_then (entries paths) describe_paths).
Qed.

(** What [process] does: it throws an error without a response before
    answering, or answers 200 with the described paths. *)
Lemma process_cases api s :
  (exists e s1,
      process plat api s = (inl e, s1)
      /\ has_response e = false
      /\ sent s1 = sent s /\ requests s1 = requests s)
  \/ (exists ds s1,
        process plat api s = send 200 (PathsBody ds stored_message) s1
        /\ sent s1 = sent s /\ requests s1 = requests s).
Proof.
  rewrite process_eq.
  destruct (read (Some api) "paths") as [e|paths] eqn:R.
  - left. exists e, s. repeat split. now apply read_error in R.
  - destruct (truthy paths) eqn:T.
    + destruct (storePathsInRedis plat paths s) as [[e|[]] s1] eqn:S;
        apply storePathsInRedis_silent in S as (H1 & H2 & H3).
      * left. exists e, s1. repeat split; auto.
      * destruct (and_then (entries paths) describe_paths) as [e|ds] eqn:D.
        -- left. exists e, s1. repeat split; auto.
           unfold and_then in D.
           destruct (entries paths) as [e1|es] eqn:E1.
           ++ injection D as <-. now apply entries_error in E1.
           ++ now apply describe_paths_error in D.
        -- right. exists ds, s1. now repeat split.
    + right. exists [], s. now repeat split.
Qed.

(** The handlers, by what their steps give. *)
Lemma post_full_spec_eq body s :
  post_full_spec plat body s =
  if truthy body then
    match dereference plat body with
    | inl message =>
        send 400 (ErrorBody invalid (Some (DereferenceError message))) s
    | inr api =>
        match process plat api s with
        | (inl e, s1) => send 400 (ErrorBody invalid (Some e)) s1
        | (inr u, s1) => (inr u, s1)
        end
    end
  else send 400 (ErrorBody "OpenAPI specification is required" None) s.
Proof.
  unfold post_full_spec, try_catch, bind, deref, lift.
  destruct (truthy body); [|reflexivity]. cbn [negb].
  destruct (dereference plat body) as [message|api]; [reflexivity|].
  now destruct (process plat api s) as [[e|u] s1].
Qed.

Lemma send_eq c b s :
  send c b s =
  (inr tt,
   {| store := store s; commands := commands s; requests := requests s;
      sent := sent s ++ [{| code := c; body := b |}] |}).
Proof. reflexivity. Qed.

(** The specification, once fetched and converted, is handled by
    [/full-spec-from-url] as [/full-spec] handles a body. *)
Lemma spec_handling spec s :
  exists c b s1,
    try_catch (bind (deref plat spec) (process plat))
      (fun error =>
         if has_response error
         then send 400 (ErrorBody "Failed to fetch OpenAPI specification"
                          (Some error))
         else send 400 (ErrorBody invalid (Some error))) s
    = send c b s1
    /\ try_catch (bind (deref plat spec) (process plat))
         (fun error => send 400 (ErrorBody invalid (Some error))) s
       = send c b s1
    /\ sent s1 = sent s /\ requests s1 = requests s
    /\ (c = 200 \/ c = 400).
Proof.
  unfold try_catch, bind, deref, lift.
  destruct (dereference plat spec) as [message|api].
  - exists 400, (ErrorBody invalid (Some (DereferenceError message))), s.
    cbn [has_response]. repeat split. now right.
  - destruct (process_cases api s)
      as [(e & s1 & P & He & H1 & H2) | (ds & s1 & P & H1 & H2)];
      rewrite P.
    + rewrite He. exists 400, (ErrorBody invalid (Some e)), s1.
      repeat split; auto.
    + exists 200, (PathsBody ds stored_message), s1.
      rewrite send_eq. repeat split; auto.
Qed.

Lemma to_spec_cases data s r s' :
  to_spec plat data s = (r, s') ->
  s' = s /\ (forall e, r = inl e -> e = NeitherJsonNorYaml).
Proof.
  unfold to_spec, ret, throw.
  destruct data as [| | |text| |];
    try (intros H; injection H as <- <-; split; [reflexivity|discriminate]).
  destruct (parse plat text);
    [intros H; injection H as <- <-; split; [reflexivity|discriminate]|].
  destruct (yaml_load plat text);
    intros H; injection H as <- <-; split; try reflexivity; try discriminate.
  intros e H. now injection H as <-.
Qed.

Lemma request_server r s :
  snd (request plat r s)
  = {| store := store s; commands := commands s;
       requests := requests s ++ [r]; sent := sent s |}.
Proof. unfold request. now destruct (http plat (List.length (requests s))). Qed.

Lemma post_full_spec_from_url_eq body s :
  post_full_spec_from_url plat body s =
  match read body "url" with
  | inl e => send 400 (ErrorBody invalid (Some e)) s
  | inr url =>
      if truthy url then
        let s0 := snd (request plat (AxiosGet url) s) in
        match http plat (List.length (requests s)) with
        | HttpFailed message response =>
            send 400
              (ErrorBody (if response
                          then "Failed to fetch OpenAPI specification"
                          else invalid)
                 (Some (AxiosError message response))) s0
        | HttpOk data =>
            match fst (to_spec plat data s0) with
            | inl e => send 400 (ErrorBody invalid (Some e)) s0
            | inr spec =>
                try_catch (bind (deref plat spec) (process plat))
                  (fun error => send 400 (ErrorBody invalid (Some error))) s0
            end
        end
      else send 400 (ErrorBody "URL is required" None) s
  end.
Proof.
  unfold post_full_spec_from_url.
  unfold try_catch at 1, bind at 1, lift.
  destruct (read body "url") as [e|url] eqn:R.
  - now rewrite (read_error _ _ _ R).
  - destruct (truthy url); cbn [negb]; [|reflexivity].
    cbv zeta. rewrite request_server.
    unfold bind at 1. unfold request.
    destruct (http plat (List.length (requests s)))
      as [data|message response].
    + set (s0 := {| store := store s; commands := commands s;
                    requests := requests s ++ [AxiosGet url];
                    sent := sent s |}).
      unfold bind at 1.
      destruct (to_spec plat data s0) as [[e|spec] s0'] eqn:T;
        apply to_spec_cases in T as [-> T]; cbn [fst].
      * now rewrite (T e eq_refl).
      * destruct (spec_handling spec s0) as (c & b & s1 & E1 & E2 & _).
        unfold try_catch, bind in E1, E2. unfold try_catch, bind.
        now rewrite E1, E2.
    + now destruct response.
Qed.

Lemma get_paths_eq p s :
  get_paths plat p s =
  let s1 := issued s (store s) in
  let failed e := send 500 (ErrorBody "Error processing request" (Some e)) in
  let not_found := send 404 (ErrorBody "Path not found in database" None) in
  match redis_fault plat (commands s) with
  | Some message => failed (RedisError message) s1
  | None =>
      match store s ("path:" ++ text_of p)%string with
      | None => not_found s1
      | Some text =>
          if String.eqb text "" then not_found s1
          else
            match parse plat text with
            | None => failed (SyntaxError text) s1
            | Some parsedPathInfo =>
                let s2 :=
                  {| store := store s; commands := S (commands s);
                     requests :=
                       requests s
                         ++ [AxiosPost (endpoint plat ++ "/api/flow-start")
                               (flow_payload plat p parsedPathInfo)];
                     sent := sent s |} in
                match http plat (List.length (requests s)) with
                | HttpOk data => send 200 (FlowBody p data) s2
                | HttpFailed message response =>
                    failed (AxiosError message response) s2
                end
            end
      end
  end.
Proof.
  unfold get_paths, try_catch, bind, redis_get.
  destruct (redis_fault plat (commands s)) as [message|]; [reflexivity|].
  destruct (store s ("path:" ++ text_of p)%string) as [text|];
    [|reflexivity].
  destruct (String.eqb text ""); [reflexivity|].
  destruct (parse plat text) as [j|]; [|reflexivity].
  unfold request. cbn [requests issued store commands sent].
  now destruct (http plat (List.length (requests s))).
Qed.

(** X10.  Every handler answers: it does not throw, and it sends one response,
    with status 200 or 400 for the two POST routes and 200, 404 or 500 for
    [GET /paths]. *)
Theorem handlers_answer_once body p s :
  (exists c b s1,
      post_full_spec plat body s = send c b s1
      /\ sent s1 = sent s /\ (c = 200 \/ c = 400))
  /\ (exists c b s1,
        post_full_spec_from_url plat body s = send c b s1
        /\ sent s1 = sent s /\ (c = 200 \/ c = 400))
  /\ (exists c b s1,
        get_paths plat p s = send c b s1
        /\ sent s1 = sent s /\ (c = 200 \/ c = 404 \/ c = 500)).
Proof.
  split; [|split].
  - unfold post_full_spec.
    destruct (truthy body); cbn [negb].
    + destruct (spec_handling body s) as (c & b & s1 & _ & E & H1 & _ & Hc).
      exists c, b, s1. now repeat split.
    + exists 400, (ErrorBody "OpenAPI specification is required" None), s.
      repeat split. now right.
  - rewrite post_full_spec_from_url_eq.
    destruct (read body "url") as [e|url].
    + eexists 400, _, _. repeat split. auto.
    + destruct (truthy url); [|eexists 400, _, _; repeat split; auto].
      cbv zeta. rewrite request_server.
      destruct (http plat (List.length (requests s)))
        as [data|message response];
        [|eexists 400, _, _; repeat split; auto].
      set (s0 := {| store := store s; commands := commands s;
                    requests := requests s ++ [AxiosGet url];
                    sent := sent s |}).
      destruct (fst (to_spec plat data s0)) as [e|spec].
      * eexists 400, _, _. repeat split. auto.
      * destruct (spec_handling spec s0) as (c & b & s1 & _ & E & H1 & _ & Hc).
        exists c, b, s1. now repeat split.
  - rewrite get_paths_eq. cbv zeta.
    destruct (redis_fault plat (commands s)) as [message|].
    + eexists 500, _, _. repeat split. auto.
    + destruct (store s ("path:" ++ text_of p)%string) as [text|].
      * destruct (String.eqb text "").
        -- eexists 404, _, _. repeat split. auto.
        -- destruct (parse plat text) as [j|].
           ++ destruct (http plat (List.length (requests s)))
                as [data|message response].
              ** eexists 200, _, _. repeat split. auto.
              ** eexists 500, _, _. repeat split. auto.
           ++ eexists 500, _, _. repeat split. auto.
      * eexists 404, _, _. repeat split. auto.
Qed.

(** X11.  A specification without paths writes nothing: with no body the answer
    is 400, and with a dereferenced specification whose [paths] is absent
    or falsy the answer is 200 with an empty list, the server left as it
    was but for the response. *)
Theorem spec_without_paths body s :
  (truthy body = false ->
   post_full_spec plat body s
   = send 400 (ErrorBody "OpenAPI specification is required" None) s)
  /\ (forall api paths,
        truthy body = true ->
        dereference plat body = inr api ->
        read (Some api) "paths" = inr paths ->
        truthy paths = false ->
        post_full_spec plat body s
        = send 200 (PathsBody [] stored_message) s).
Proof.
  split.
  - intros T. rewrite post_full_spec_eq. now rewrite T.
  - intros api paths T D R P.
    rewrite post_full_spec_eq, T, D, process_eq, R, P. reflexivity.
Qed.

(** X12.  The description of the paths is computed after they are stored: when
    it throws, as on an operation that is [null], [/full-spec] answers 400
    although every path and the list of paths are in redis. *)
Theorem failed_description_after_storing body api paths es e s :
  truthy body = true ->
  dereference plat body = inr api ->
  read (Some api) "paths" = inr paths ->
  truthy paths = true ->
  entries paths = inr es ->
  quiet (commands s) (S (List.length es)) ->
  describe_paths es = inl e ->
  exists s',
    post_full_spec plat body s = (inr tt, s')
    /\ sent s' = sent s ++ [{| code := 400;
                               body := ErrorBody invalid (Some e) |}]
    /\ (forall p info,
          In (p, info) es ->
          store s' ("path:" ++ p)%string = Some (stringify plat info))
    /\ store s' "all_paths"%string
       = Some (stringify plat (JArr (map (fun x => JStr (fst x)) es))).
Proof.
  intros T D R P E Hq F.
  rewrite post_full_spec_eq, T, D, process_eq, R, P.
  rewrite (storePathsInRedis_quiet plat paths es s E Hq).
  unfold and_then. rewrite E, F, send_eq.
  eexists. split; [reflexivity|]. cbn [sent store].
  split; [reflexivity|]. split.
  - intros p info Hin. now apply stored_path with paths.
  - apply put_same.
Qed.

(** X13.  What [/full-spec] reports for each path: the paths in the order of the
    specification, and for each the operations named get, post, put,
    delete or patch, in the order of the path item, with the summary and
    the description read from the operation.  Every other key of a path
    item is left out. *)
Theorem described_paths_shape es ds :
  describe_paths es = inr ds ->
  map path ds = map fst es
  /\ Forall2
       (fun d e =>
          exists ms,
            entries (Some (snd e)) = inr ms
            /\ map fst (data d) = filter is_method (map fst ms)
            /\ forall m info,
                 In (m, info) (data d) ->
                 exists details,
                   In (m, details) ms
                   /\ read (Some details) "summary" = inr (summary info)
                   /\ read (Some details) "description"
                      = inr (description info))
       ds es.
Proof.
  assert (forall ms l,
            describe_methods ms = inr l ->
            map fst l = filter is_method (map fst ms)
            /\ forall m info,
                 In (m, info) l ->
                 exists details,
                   In (m, details) ms
                   /\ read (Some details) "summary" = inr (summary info)
                   /\ read (Some details) "description"
                      = inr (description info)) as Hm.
  { induction ms as [|[m d] ms IH]; intros l; cbn [describe_methods].
    - intros H. injection H as <-. split; [reflexivity|]. intros ? ? [].
    - cbn [map fst filter]. destruct (is_method m).
      + destruct (read (Some d) "summary") as [e1|sm] eqn:R1;
          cbn [and_then]; [discriminate|].
        destruct (read (Some d) "description") as [e2|dsc] eqn:R2;
          cbn [and_then]; [discriminate|].
        destruct (describe_methods ms) as [e3|l'] eqn:D;
          cbn [and_then]; [discriminate|].
        intros H. injection H as <-.
        destruct (IH l' eq_refl) as [IH1 IH2].
        split; [cbn; now rewrite IH1|].
        intros m' info [H | H].
        * injection H as <- <-. exists d. cbn. auto.
        * destruct (IH2 m' info H) as (details & Hin & Hr).
          exists details. split; [now right|exact Hr].
      + intros H. destruct (IH l H) as [IH1 IH2]. split; [exact IH1|].
        intros m' info Hin. destruct (IH2 m' info Hin) as (details & Hd & Hr).
        exists details. split; [now right|exact Hr]. }
  revert ds. induction es as [|[p info] es IH]; intros ds;
    cbn [describe_paths].
  - intros H. injection H as <-. split; [reflexivity|constructor].
  - destruct (entries (Some info)) as [e1|ms] eqn:E1;
      cbn [and_then]; [discriminate|].
    destruct (describe_methods ms) as [e2|l] eqn:E2;
      cbn [and_then]; [discriminate|].
    destruct (describe_paths es) as [e3|others] eqn:E3;
      cbn [and_then]; [discriminate|].
    intros H. injection H as <-.
    destruct (IH others eq_refl) as [IH1 IH2].
    split; [cbn; now rewrite IH1|].
    constructor; [|exact IH2].
    exists ms. cbn [snd data]. split; [exact E1|]. now apply Hm.
Qed.

(** X14.  [GET /paths] for a path that is not stored, or stored as the empty
    string: one read of redis, 404, and no request to the backend. *)
Theorem path_not_found p s :
  redis_fault plat (commands s) = None ->
  store s ("path:" ++ text_of p)%string = None
  \/ store s ("path:" ++ text_of p)%string = Some ""%string ->
  get_paths plat p s
  = send 404 (ErrorBody "Path not found in database" None)
      (issued s (store s)).
Proof.
  intros Hq H. rewrite get_paths_eq, Hq. cbv zeta.
  now destruct H as [-> | ->].
Qed.

(** X15.  A path stored by [storePathsInRedis] is found by [GET /paths]: when
    the serialiser gives a text that parses back to the item, the handler
    posts the path with that item to the backend and answers 200 with the
    reply of the backend. *)
Theorem stored_path_reaches_backend paths es p info data s :
  entries paths = inr es ->
  In (p, info) es ->
  quiet (commands s) (List.length es + 2) ->
  stringify plat info <> ""%string ->
  parse plat (stringify plat info) = Some info ->
  http plat (List.length (requests s)) = HttpOk data ->
  exists s1 s2,
    storePathsInRedis plat paths s = (inr tt, s1)
    /\ get_paths plat (Some p) s1 = (inr tt, s2)
    /\ sent s2 = sent s ++ [{| code := 200; body := FlowBody (Some p) data |}]
    /\ requests s2
       = requests s ++ [AxiosPost (endpoint plat ++ "/api/flow-start")
                          (flow_payload plat (Some p) info)].
Proof.
  intros E Hin Hq Hne Hp Hd.
  rewrite (storePathsInRedis_quiet plat paths es s E
             ltac:(intros k Hk; apply Hq; lia)).
  eexists. eexists. split; [reflexivity|].
  rewrite get_paths_eq. cbv zeta. cbn [commands store requests sent].
  rewrite (Hq (S (commands s + List.length es))) by lia.
  cbn [text_of]. rewrite (stored_path plat paths es _ p info E Hin).
  apply String.eqb_neq in Hne. rewrite Hne, Hp, Hd, send_eq.
  repeat split.
Qed.

(** X16.  How [/full-spec-from-url] fails before it has a specification: a body
    without a truthy [url] is answered 400 "URL is required" with no
    request made; a request that fails is answered "Failed to fetch" only
    when the error carries a response, and "Invalid OpenAPI specification"
    when it carries none, as when the host cannot be reached; a text that
    is neither JSON nor YAML is answered "Invalid OpenAPI specification". *)
Theorem from_url_failures body url s :
  read body "url" = inr url ->
  let s0 := snd (request plat (AxiosGet url) s) in
  (truthy url = false ->
   post_full_spec_from_url plat body s
   = send 400 (ErrorBody "URL is required" None) s)
  /\ (forall message response,
        truthy url = true ->
        http plat (List.length (requests s)) = HttpFailed message response ->
        post_full_spec_from_url plat body s
        = send 400
            (ErrorBody (if response
                        then "Failed to fetch OpenAPI specification"
                        else invalid)
               (Some (AxiosError message response))) s0)
  /\ (forall text,
        truthy url = true ->
        http plat (List.length (requests s)) = HttpOk (JStr text) ->
        parse plat text = None ->
        yaml_load plat text = None ->
        post_full_spec_from_url plat body s
        = send 400 (ErrorBody invalid (Some NeitherJsonNorYaml)) s0).
Proof.
  intros R s0. rewrite post_full_spec_from_url_eq, R. cbv zeta. fold s0.
  split; [|split].
  - intros T. now rewrite T.
  - intros message response T H. now rewrite T, H.
  - intros text T H P Y. rewrite T, H.
    unfold to_spec. now rewrite P, Y.
Qed.

(** X17.  Once the specification is fetched, [/full-spec-from-url] handles it as
    [/full-spec] handles a body: when the reply is a value that is not a
    string, or a string that parses as JSON, and the value is truthy, the
    two handlers give the same answer and leave the same server.  JSON is
    tried first: what the YAML parser would make of the text plays no
    part. *)
Theorem from_url_handles_as_full_spec body url data v s :
  read body "url" = inr url ->
  truthy url = true ->
  http plat (List.length (requests s)) = HttpOk data ->
  (exists text, data = JStr text /\ parse plat text = Some v)
  \/ ((forall text, data <> JStr text) /\ v = data) ->
  truthy (Some v) = true ->
  post_full_spec_from_url plat body s
  = post_full_spec plat (Some v) (snd (request plat (AxiosGet url) s)).
Proof.
  intros R T H Hv Tv.
  rewrite post_full_spec_from_url_eq, R, T, H. cbv zeta.
  set (s0 := snd (request plat (AxiosGet url) s)).
  assert (to_spec plat data s0 = (inr (Some v), s0)) as Ht.
  { unfold to_spec, ret.
    destruct Hv as [(text & -> & P) | [Hn ->]]; [now rewrite P|].
    destruct data as [| | |text| |]; try reflexivity. now destruct (Hn text). }
  rewrite Ht. cbn [fst].
  unfold post_full_spec. now rewrite Tv.
Qed.

End Handlers.

Lemma failed_description_after_storing_witness :
  exists s',
    post_full_spec healthy (Some null_operation) fresh = (inr tt, s')
    /\ sent s' = [{| code := 400;
                     body := ErrorBody "Invalid OpenAPI specification"
                               (Some (TypeErrorRead "summary")) |}]
    /\ store s' "path:/pets"%string = Some "[object]"%string.
Proof.
  destruct (failed_description_after_storing healthy (Some null_operation)
              null_operation
              (Some (JObj [("/pets"%string, JObj [("get"%string, JNull)])]))
              _ (TypeErrorRead "summary") fresh
              eq_refl eq_refl eq_refl eq_refl eq_refl
              (healthy_quiet _ _) eq_refl)
    as (s' & E & Hs & Hp & _).
  exists s'. split; [exact E|]. split; [exact Hs|].
  apply (Hp "/pets"%string (JObj [("get"%string, JNull)])). now left.
Defined.

Lemma described_paths_shape_witness :
  let es := [("/pets"%string,
              JObj [("parameters"%string, JArr []);
                    ("post"%string, JObj [("summary"%string, JStr "Add")]);
                    ("head"%string, JObj []);
                    ("get"%string, JObj [])])] in
  exists ds,
    describe_paths es = inr ds
    /\ map path ds = ["/pets"%string]
    /\ map (fun d => map fst (data d)) ds = [["post"%string; "get"%string]].
Proof.
  intros es. eexists. split; [reflexivity|].
  split; [|reflexivity].
  exact (proj1 (described_paths_shape es _ eq_refl)).
Defined.

Lemma path_not_found_witness :
  get_paths healthy (Some "/pets"%string) fresh
  = send 404 (ErrorBody "Path not found in database" None)
      (issued fresh (store fresh)).
Proof.
  exact (path_not_found healthy (Some "/pets"%string) fresh eq_refl
           (or_introl eq_refl)).
Defined.

Lemma stored_path_reaches_backend_witness :
  exists s1 s2,
    storePathsInRedis healthy two_paths fresh = (inr tt, s1)
    /\ get_paths healthy (Some "/pets"%string) s1 = (inr tt, s2)
    /\ sent s2 = [{| code := 200;
                     body := FlowBody (Some "/pets"%string) (JObj []) |}]
    /\ requests s2
       = [AxiosPost "http://localhost:8000/api/flow-start"
            (flow_payload healthy (Some "/pets"%string) (JObj []))].
Proof.
  exact (stored_path_reaches_backend healthy two_paths _ "/pets" (JObj [])
           (JObj []) fresh eq_refl (or_introl eq_refl) (healthy_quiet _ _)
           ltac:(discriminate) eq_refl eq_refl).
Defined.

Lemma spec_without_paths_witness :
  post_full_spec healthy (Some (JObj [("openapi"%string, JStr "3.0.0")])) fresh
  = send 200 (PathsBody [] "Paths stored in Redis successfully") fresh.
Proof.
  exact (proj2 (spec_without_paths healthy
                  (Some (JObj [("openapi"%string, JStr "3.0.0")])) fresh)
           _ undefined eq_refl eq_refl eq_refl eq_refl).
Defined.

Lemma from_url_failures_witness :
  let plat := toy (fun _ => None)
                  (fun _ => HttpFailed "connect ECONNREFUSED" false) in
  let body := Some (JObj [("url"%string, JStr "http://nowhere.invalid/spec")]) in
  post_full_spec_from_url plat body fresh
  = send 400
      (ErrorBody "Invalid OpenAPI specification"
         (Some (AxiosError "connect ECONNREFUSED" false)))
      (snd (request plat (AxiosGet (str "http://nowhere.invalid/spec")) fresh)).
Proof.
  intros plat body.
  exact (proj1 (proj2 (from_url_failures plat body
                         (str "http://nowhere.invalid/spec") fresh eq_refl))
           "connect ECONNREFUSED"%string false eq_refl eq_refl).
Defined.

Lemma from_url_handles_as_full_spec_witness :
  let plat := toy (fun _ => None) (fun _ => HttpOk (JStr "{}")) in
  let body := Some (JObj [("url"%string, JStr "http://specs.test/petstore")]) in
  post_full_spec_from_url plat body fresh
  = post_full_spec plat (Some (JObj []))
      (snd (request plat (AxiosGet (str "http://specs.test/petstore")) fresh)).
Proof.
  intros plat body.
  exact (from_url_handles_as_full_spec plat body
           (str "http://specs.test/petstore") (JStr "{}") (JObj []) fresh
           eq_refl eq_refl eq_refl
           (or_introl (ex_intro _ "{}"%string (conj eq_refl eq_refl)))
           eq_refl).
Defined.

End HandlerFacts.
